(** * NostrWeb-95: the Nostalgia relay client of [src/App.tsx]

    A shallow embedding of the relay-facing part of the [NostalgiaApp]
    component: the notes query and its ordering, the profile-metadata query
    and its cache, the media upload, and the publish mutation.

    JavaScript values that the component only passes around are kept
    abstract; the built-ins and the third-party libraries it calls
    (JSON, btoa, WebCrypto, nostr-tools, fetch, @tanstack/react-query) are
    either taken as members of a [Runtime] interface or modelled as small
    state machines next to the code that uses them. *)

From Stdlib Require Import ZArith List Sorted Permutation.
From Stdlib Require Strings.Byte.
From Stdlib Require QArith.QArith_base.
From stdpp Require Import base list strings gmap.

Set Warnings "-register-all".

Local Open Scope string_scope.
Local Open Scope list_scope.
Local Open Scope Z_scope.

(** ** JavaScript values and exceptions *)

Module Js.

(** A value produced by [JSON.parse].  Every JSON number is a finite
    double, hence a rational. *)
Inductive Json : Type :=
| JNull
| JBool (b : bool)
| JNumber (q : QArith_base.Q)
| JString (s : string)
| JArray (items : list Json)
| JObject (fields : list (string * Json)).

(** A JavaScript value as the component handles it: [undefined], or
    something that came out of a JSON document. *)
Inductive Value : Type :=
| undefined
| val (j : Json).

(** Thrown values.  Everything the component catches is read through
    [.message], so an exception is an error object with a message; an
    [AggregateError] also carries its [errors] array. *)
Inductive Exn : Type :=
| Error (message : string)
| Raised (name message : string)
| AggregateError (errors : list Exn).

Definition message (e : Exn) : string :=
  match e with
  | Error m => m
  | Raised _ m => m
  | AggregateError _ => "All promises were rejected"
  end.

(** Completion of a call that may throw. *)
Inductive Completion (A : Type) : Type :=
| Return (a : A)
| Throw (e : Exn).
Arguments Return {A} a.
Arguments Throw {A} e.

(** [o.url] for [o] the result of [response.json()]: reading a property of
    [null] throws; an object yields its field or [undefined]; primitives
    and arrays have no such property. *)
Fixpoint field (k : string) (fs : list (string * Json)) : Value :=
  match fs with
  | [] => undefined
  | (k', v) :: fs' => if String.eqb k k' then val v else field k fs'
  end.

Definition get (j : Json) (k : string) : Completion Value :=
  match j with
  | JNull =>
      Throw (Raised "TypeError" ("Cannot read properties of null (reading '" +:+ k +:+ "')"))
  | JObject fs => Return (field k fs)
  | _ => Return undefined
  end.

(** JavaScript truthiness of a [string | null]: [null] and the empty
    string are falsy. *)
Definition truthy (s : option string) : bool :=
  match s with
  | Some s => negb (String.eqb s "")
  | None => false
  end.

End Js.
Import Js.

(** ** Protocol data *)

(** [Event] of nostr-tools. *)
Record NostrEvent : Type := mkEvent {
  id : string;
  pubkey : string;
  created_at : Z;
  kind : Z;
  tags : list (list string);
  content : string;
  sig : string
}.

(** The object literals [eventTemplate] of [uploadToBlossom] and of the
    publish mutation. *)
Record EventTemplate : Type := mkTemplate {
  t_kind : Z;
  t_created_at : Z;
  t_tags : list (list string);
  t_content : string
}.

(** The filter objects handed to [pool.querySync]; an absent property is
    [None]. *)
Record Filter : Type := mkFilter {
  kinds : list Z;
  authors : option (list string);
  limit : option Z
}.

(** A [File] picked in the file input. *)
Record File : Type := mkFile {
  file_name : string;
  file_bytes : list Byte.byte
}.

(** The request built by the [fetch] call of [uploadToBlossom]. *)
Inductive Method : Type := GET | PUT | POST.

Record HttpRequest : Type := mkRequest {
  req_url : string;
  req_method : Method;
  req_headers : list (string * string);
  req_body : File
}.

(** What the component reads of a [Response]: [response.ok] and the
    outcome of [response.json()]. *)
Record HttpResponse : Type := mkResponse {
  ok : bool;
  json : Completion Json
}.

(** ** The platform the component runs on *)

(** Built-ins and library functions whose results the component does not
    inspect.  A member that can throw returns a [Completion]. *)
Class Runtime : Type := {
  (** [parseInt(s, 16)]; [None] is [NaN]. *)
  parseInt16 : string → option Z;
  (** [crypto.subtle.digest('SHA-256', await file.arrayBuffer())]. *)
  digest_sha256 : File → Completion (list Byte.byte);
  (** [JSON.stringify] of a signed event, and [btoa], which throws on a
      character outside Latin-1. *)
  JSON_stringify : NostrEvent → string;
  btoa : string → Completion string;
  (** [JSON.parse]; [None] is a thrown [SyntaxError]. *)
  JSON_parse : string → option Json;
  (** [String(v)] as [Array.prototype.join] applies it to an element that
      is neither a string nor nullish. *)
  ToString : Json → string;
  (** [s.trim()]. *)
  trim : string → string;
  (** nostr-tools: public key of a secret key (throws on an invalid key),
      event hash, Schnorr signature. *)
  getPublicKey : list Byte.byte → Completion string;
  getEventHash : string → EventTemplate → string;
  schnorr_sign : string → list Byte.byte → string
}.

(** ** Utilities of [App.tsx] *)

Definition hex_digit (n : N) : string :=
  match n with
  | 0%N => "0" | 1%N => "1" | 2%N => "2" | 3%N => "3"
  | 4%N => "4" | 5%N => "5" | 6%N => "6" | 7%N => "7"
  | 8%N => "8" | 9%N => "9" | 10%N => "a" | 11%N => "b"
  | 12%N => "c" | 13%N => "d" | 14%N => "e" | _ => "f"
  end.

(** [b.toString(16)] for an element [b] of a [Uint8Array]. *)
Definition toString16 (b : Byte.byte) : string :=
  let n := Byte.to_N b in
  if (n <? 16)%N then hex_digit n
  else hex_digit (n / 16) +:+ hex_digit (n mod 16).

(** [s.padStart(2, '0')]. *)
Definition padStart2 (s : string) : string :=
  match String.length s with
  | 0%nat => "00"
  | 1%nat => "0" +:+ s
  | _ => s
  end.

(** [bytesToHex]: [Array.from(bytes).map(b => b.toString(16).padStart(2, '0')).join('')]. *)
Definition bytesToHex (bytes : list Byte.byte) : string :=
  String.concat "" (map (λ b, padStart2 (toString16 b)) bytes).

(** Storing a number into a [Uint8Array]: [NaN] becomes 0, an integer
    is reduced modulo 256. *)
Definition ToUint8 (x : option Z) : Byte.byte :=
  match x with
  | None => Byte.x00
  | Some z => default Byte.x00 (Byte.of_N (Z.to_N (z mod 256)))
  end.

(** [hexToBytes]: a [Uint8Array] of [hex.length / 2] elements (the length
    is truncated to an integer), filled by the loop
    [for (i = 0; i < hex.length; i += 2) bytes[i / 2] = parseInt(hex.substring(i, i + 2), 16)];
    a store past the end of a typed array is ignored. *)
Definition hexToBytes `{Runtime} (hex : string) : list Byte.byte :=
  let len := String.length hex in
  foldl (λ bytes k, <[k := ToUint8 (parseInt16 (String.substring (2 * k) 2 hex))]> bytes)
        (replicate (len / 2) Byte.x00)
        (seq 0 ((len + 1) / 2)).

Definition BLOSSOM_SERVERS : list string :=
  ["https://blossom.nostr.wine"; "https://satellite.earth"; "https://nostrcheck.me"].

Definition LF : string := String (Ascii.ascii_of_nat 10) "".

(** ** [Promise.any] *)

(** How a promise settles. *)
Inductive Settled (A : Type) : Type :=
| Fulfilled (v : A)
| Rejected (e : Exn).
Arguments Fulfilled {A} v.
Arguments Rejected {A} e.

Module PromiseAny.
Section Machine.
Context {A : Type}.

(** The record of one [Promise.any] call: the state of the promise it
    returned ([None] while pending), its [errors] list with a slot per
    input promise ([None] until that promise's reject handler has run),
    and the count of handlers still to run. *)
Record state : Type := mk {
  status : option (Settled A);
  errors : list (option Exn);
  remaining : nat
}.

(** After the synchronous loop over the [n] input promises.  With no
    input the returned promise is rejected at once, with an empty
    [errors] array. *)
Definition init (n : nat) : state :=
  {| status := match n with
               | O => Some (Rejected (AggregateError []))
               | S _ => None
               end;
     errors := replicate n None;
     remaining := n |}.

(** Settling the returned promise: only the first settlement counts. *)
Definition settle (r : Settled A) (st : state) : state :=
  match status st with
  | None => {| status := Some r; errors := errors st; remaining := remaining st |}
  | Some _ => st
  end.

(** The reject handler of input promise [i]: runs at most once, stores
    the reason in slot [i], and rejects the returned promise with the
    whole [errors] list when it was the last one. *)
Definition reject_element (i : nat) (e : Exn) (st : state) : state :=
  match errors st !! i with
  | Some None =>
      let st' := {| status := status st;
                    errors := <[i := Some e]> (errors st);
                    remaining := pred (remaining st) |} in
      match remaining st' with
      | O => settle (Rejected (AggregateError (omap (λ slot, slot) (errors st')))) st'
      | S _ => st'
      end
  | _ => st
  end.

(** Input promise [i] settles. *)
Definition step (outs : list (Settled A)) (st : state) (i : nat) : state :=
  match outs !! i with
  | Some (Fulfilled v) => settle (Fulfilled v) st
  | Some (Rejected e) => reject_element i e st
  | None => st
  end.

(** [Promise.any(outs)] after the input promises listed in [sched] have
    settled, in that order. *)
Definition run (outs : list (Settled A)) (sched : list nat) : state :=
  foldl (step outs) (init (length outs)) sched.

(** The reasons of the inputs that reject, in input order. *)
Definition causes (outs : list (Settled A)) : list Exn :=
  omap (λ o, match o with Rejected e => Some e | Fulfilled _ => None end) outs.

Definition acks (o : Settled A) : bool :=
  match o with Fulfilled _ => true | Rejected _ => false end.

(** Vocabulary for the properties of the machine. *)

(** The value of the first promise of the schedule that fulfils. *)
Fixpoint first_ack (outs : list (Settled A)) (sched : list nat) : option A :=
  match sched with
  | [] => None
  | i :: sched' =>
      match outs !! i with
      | Some (Fulfilled v) => Some v
      | _ => first_ack outs sched'
      end
  end.

(** A filled slot holds the reason of the promise at that index. *)
Definition slot_of (slot : option Exn) (o : Settled A) : Prop :=
  ∀ e, slot = Some e → o = Rejected e.

Definition filled (slots : list (option Exn)) : list Exn := omap (λ slot, slot) slots.

(** What holds of the record after the promises of [p] have settled. *)
Record any_inv (outs : list (Settled A)) (p : list nat) (st : state) : Prop := {
  inv_slots : Forall2 slot_of (errors st) outs;
  inv_count : (remaining st + length (filled (errors st)) = length outs)%nat;
  inv_seen : ∀ i e, i ∈ p → outs !! i = Some (Rejected e) → errors st !! i = Some (Some e);
  inv_status :
    status st =
    match first_ack outs p with
    | Some v => Some (Fulfilled v)
    | None =>
        match remaining st with
        | O => Some (Rejected (AggregateError (filled (errors st))))
        | S _ => None
        end
    end
}.

End Machine.
Arguments state A : clear implicits.
End PromiseAny.

(** ** [Array.prototype.sort] *)

Section Sort.
Context {A : Type} (cmp : A → A → Z).

(** Placing [x], which precedes every element of [l] in the array, into
    the sorted [l]: it goes before the first element it does not have
    to follow, so it stays ahead of the elements it ties with. *)
Fixpoint sort_insert (x : A) (l : list A) : list A :=
  match l with
  | [] => [x]
  | y :: l' => if cmp x y <=? 0 then x :: y :: l' else y :: sort_insert x l'
  end.

(** [l.sort(cmp)].  The specification of the language requires the sort
    to be stable, so for a comparator that is a consistent ordering the
    result is this list whatever algorithm the engine uses. *)
Fixpoint js_sort (l : list A) : list A :=
  match l with
  | [] => []
  | x :: l' => sort_insert x (js_sort l')
  end.
End Sort.

(** ** Asynchronous calls *)

(** How far an asynchronous function got: it returned, it threw, or it is
    suspended on an [await] that has not completed. *)
Inductive Outcome (A : Type) : Type :=
| Done (a : A)
| Failed (e : Exn)
| Suspended.
Arguments Done {A} a.
Arguments Failed {A} e.
Arguments Suspended {A}.

(** A call that has completed. *)
Definition completed {A} (c : Completion A) : Outcome A :=
  match c with
  | Return a => Done a
  | Throw e => Failed e
  end.

(** ** The environment of the component *)

(** Props of [NostalgiaApp], [window.nostr], the clock, and the behaviour
    of the peers during the call under study. *)
Record Env : Type := mkEnv {
  relays : list string;
  userPk : option string;
  userSk : option string;
  (** [window.nostr]: absent, or an agent; the promise of its [signEvent]
      fulfils with an event, rejects, or has not settled, as long as the
      agent has not answered. *)
  nostr : option (EventTemplate → Outcome NostrEvent);
  (** [Date.now()], in milliseconds. *)
  now : Z;
  (** The valid events an endpoint delivers for a filter before its end
      of stored events; [None] when it errors or times out. *)
  relay_events : string → Filter → option (list NostrEvent);
  (** The endpoints in the order in which they answer the query. *)
  arrival : list string;
  (** How the write to the [i]-th endpoint settles. *)
  relay_write : nat → string → NostrEvent → Settled string;
  (** The writes that have settled so far, in the order they did. *)
  settled_writes : list nat;
  (** The content server. *)
  fetch : HttpRequest → Completion HttpResponse
}.

(** ** The relay pool *)

(** Merging by [id]: an event already seen is dropped. *)
Fixpoint merge_by_id (seen : list string) (events : list NostrEvent) : list NostrEvent :=
  match events with
  | [] => []
  | e :: events' =>
      if existsb (String.eqb (id e)) seen then merge_by_id seen events'
      else e :: merge_by_id (id e :: seen) events'
  end.

(** Modelled from the spec: [SimplePool.querySync] of nostr-tools, which
    is not part of the repository.  One request per configured endpoint;
    the result collects, in the order the endpoints answer, what each
    delivers, merged by [id]; an endpoint that errors, times out or is not
    among [urls] contributes nothing. *)
Definition querySync_result (env : Env) (urls : list string) (f : Filter) : list NostrEvent :=
  merge_by_id []
    (flat_map (λ url, default [] (relay_events env url f))
              (filter (λ url, url ∈ urls) (arrival env))).

(** Modelled from the spec: [SimplePool.publish] of nostr-tools returns
    one promise per endpoint, in the order of [urls]. *)
Definition pool_publish (env : Env) (urls : list string) (event : NostrEvent)
  : list (Settled string) :=
  imap (λ i url, relay_write env i url event) urls.

(** ** State and effects *)

(** A cached result of the metadata query with the time it was fetched. *)
Record CacheEntry : Type := mkEntry {
  data : gmap string Json;
  dataUpdatedAt : Z
}.

(** The state of the component and of its query client, with a log of
    each kind of call that leaves the component. *)
Record World : Type := mkWorld {
  attachments : list Value;
  isUploading : bool;
  postContent : string;
  notes_cache : gmap (list string) (list NostrEvent);
  metadata_cache : gmap (list string * list string) CacheEntry;
  alerts : list string;
  sign_requests : list EventTemplate;
  relay_queries : list (list string * Filter);
  relay_writes : list (string * NostrEvent);
  http_requests : list HttpRequest;
  (** What a state updater threw while React was rendering.  Nothing
      catches it: the tree is unmounted, and the fields above no longer
      describe anything on screen. *)
  render_error : option Exn
}.

Definition M (A : Type) : Type := World → Outcome A * World.

Definition ret {A} (a : A) : M A := λ w, (Done a, w).
Definition throw {A} (e : Exn) : M A := λ w, (Failed e, w).
Definition bind {A B} (m : M A) (k : A → M B) : M B :=
  λ w, match m w with
       | (Done a, w') => k a w'
       | (Failed e, w') => (Failed e, w')
       | (Suspended, w') => (Suspended, w')
       end.
Definition lift {A} (c : Completion A) : M A :=
  match c with
  | Return a => ret a
  | Throw e => throw e
  end.
Definition gets {A} (f : World → A) : M A := λ w, (Done (f w), w).
Definition modify (f : World → World) : M unit := λ w, (Done tt, f w).

Notation "x <~ m ;; k" := (bind m (λ x, k))
  (at level 100, m at next level, right associativity, only parsing).
Notation "m ;;; k" := (bind m (λ _, k))
  (at level 100, right associativity, only parsing).

(** [try { body } catch (err) { handler } finally { fin }]. *)
Definition try_catch_finally (body : M unit) (handler : Exn → M unit) (fin : M unit) : M unit :=
  λ w, match body w with
       | (Done tt, w') => fin w'
       | (Failed e, w') => bind (handler e) (λ _, fin) w'
       | (Suspended, w') => (Suspended, w')
       end.

Definition setAttachments (f : list Value → list Value) : M unit :=
  modify (λ w, mkWorld (f (attachments w)) (isUploading w) (postContent w) (notes_cache w)
                       (metadata_cache w) (alerts w) (sign_requests w) (relay_queries w)
                       (relay_writes w) (http_requests w) (render_error w)).

(** [setAttachments(updater)] for an updater that can throw.  React runs
    the updater while it renders, after the function that queued it has
    gone on, so what the updater throws is caught by no [try] of that
    function. *)
Definition setAttachments_at_render (updater : list Value → Completion (list Value)) : M unit :=
  modify (λ w,
    match updater (attachments w) with
    | Return next =>
        mkWorld next (isUploading w) (postContent w) (notes_cache w)
                (metadata_cache w) (alerts w) (sign_requests w) (relay_queries w)
                (relay_writes w) (http_requests w) (render_error w)
    | Throw e =>
        mkWorld (attachments w) (isUploading w) (postContent w) (notes_cache w)
                (metadata_cache w) (alerts w) (sign_requests w) (relay_queries w)
                (relay_writes w) (http_requests w) (Some e)
    end).

Definition setIsUploading (b : bool) : M unit :=
  modify (λ w, mkWorld (attachments w) b (postContent w) (notes_cache w)
                       (metadata_cache w) (alerts w) (sign_requests w) (relay_queries w)
                       (relay_writes w) (http_requests w) (render_error w)).
Definition setPostContent (s : string) : M unit :=
  modify (λ w, mkWorld (attachments w) (isUploading w) s (notes_cache w)
                       (metadata_cache w) (alerts w) (sign_requests w) (relay_queries w)
                       (relay_writes w) (http_requests w) (render_error w)).
Definition setNotes (f : gmap (list string) (list NostrEvent) → gmap (list string) (list NostrEvent)) : M unit :=
  modify (λ w, mkWorld (attachments w) (isUploading w) (postContent w) (f (notes_cache w))
                       (metadata_cache w) (alerts w) (sign_requests w) (relay_queries w)
                       (relay_writes w) (http_requests w) (render_error w)).
Definition setMetadata (f : gmap (list string * list string) CacheEntry → gmap (list string * list string) CacheEntry) : M unit :=
  modify (λ w, mkWorld (attachments w) (isUploading w) (postContent w) (notes_cache w)
                       (f (metadata_cache w)) (alerts w) (sign_requests w) (relay_queries w)
                       (relay_writes w) (http_requests w) (render_error w)).
Definition alert (s : string) : M unit :=
  modify (λ w, mkWorld (attachments w) (isUploading w) (postContent w) (notes_cache w)
                       (metadata_cache w) (alerts w ++ [s]) (sign_requests w) (relay_queries w)
                       (relay_writes w) (http_requests w) (render_error w)).
Definition log_sign_request (t : EventTemplate) : M unit :=
  modify (λ w, mkWorld (attachments w) (isUploading w) (postContent w) (notes_cache w)
                       (metadata_cache w) (alerts w) (sign_requests w ++ [t]) (relay_queries w)
                       (relay_writes w) (http_requests w) (render_error w)).
Definition log_relay_query (urls : list string) (f : Filter) : M unit :=
  modify (λ w, mkWorld (attachments w) (isUploading w) (postContent w) (notes_cache w)
                       (metadata_cache w) (alerts w) (sign_requests w) (relay_queries w ++ [(urls, f)])
                       (relay_writes w) (http_requests w) (render_error w)).
Definition log_relay_writes (ws : list (string * NostrEvent)) : M unit :=
  modify (λ w, mkWorld (attachments w) (isUploading w) (postContent w) (notes_cache w)
                       (metadata_cache w) (alerts w) (sign_requests w) (relay_queries w)
                       (relay_writes w ++ ws) (http_requests w) (render_error w)).
Definition log_http_request (r : HttpRequest) : M unit :=
  modify (λ w, mkWorld (attachments w) (isUploading w) (postContent w) (notes_cache w)
                       (metadata_cache w) (alerts w) (sign_requests w) (relay_queries w)
                       (relay_writes w) (http_requests w ++ [r]) (render_error w)).

(** Calls that leave the component. *)

(** [await pool.querySync(urls, f)]. *)
Definition querySync (env : Env) (urls : list string) (f : Filter) : M (list NostrEvent) :=
  log_relay_query urls f ;;;
  ret (querySync_result env urls f).

(** [await (window as any).nostr.signEvent(t)]: the function goes on
    when the agent has answered. *)
Definition signEvent (agent : EventTemplate → Outcome NostrEvent) (t : EventTemplate) : M NostrEvent :=
  log_sign_request t ;;;
  λ w, (agent t, w).

(** [await fetch(url, init)]. *)
Definition do_fetch (env : Env) (r : HttpRequest) : M HttpResponse :=
  log_http_request r ;;;
  lift (fetch env r).

(** [await Promise.any(pool.publish(urls, event))]: every write is
    started; the [await] completes when the promise of [Promise.any] has
    settled. *)
Definition publish_any (env : Env) (urls : list string) (event : NostrEvent) : M string :=
  log_relay_writes (map (λ url, (url, event)) urls) ;;;
  match PromiseAny.status (PromiseAny.run (pool_publish env urls event) (settled_writes env)) with
  | Some (Fulfilled v) => ret v
  | Some (Rejected e) => throw e
  | None => λ w, (Suspended, w)
  end.

(** [finalizeEvent] of nostr-tools: completes the template with the
    public key of [sk], the event hash and the signature. *)
Definition finalizeEvent `{Runtime} (t : EventTemplate) (sk : list Byte.byte) : Completion NostrEvent :=
  match getPublicKey sk with
  | Throw e => Throw e
  | Return pk =>
      let h := getEventHash pk t in
      Return {| id := h; pubkey := pk; created_at := t_created_at t; kind := t_kind t;
                tags := t_tags t; content := t_content t; sig := schnorr_sign h sk |}
  end.

(** ** The component [NostalgiaApp] *)

Section NostalgiaApp.
Context `{Runtime}.
Variable env : Env.

(** *** The notes query *)

(** The comparator [(a, b) => b.created_at - a.created_at]. *)
Definition by_created_at_desc (a b : NostrEvent) : Z := created_at b - created_at a.

(** [queryFn] of the notes query. *)
Definition notes_queryFn : M (list NostrEvent) :=
  events <~ querySync env (relays env) {| kinds := [1]; authors := None; limit := Some 50 |} ;;
  ret (js_sort by_created_at_desc events).

(** [const { data: notes = [] } = useQuery(...)]. *)
Definition notes (w : World) : list NostrEvent :=
  default [] (notes_cache w !! relays env).

(** *** The metadata query *)

(** [Array.from(new Set(xs))]: the distinct elements in the order of
    their first occurrence. *)
Fixpoint from_Set (seen : list string) (xs : list string) : list string :=
  match xs with
  | [] => []
  | x :: xs' =>
      if existsb (String.eqb x) seen then from_Set seen xs'
      else x :: from_Set (x :: seen) xs'
  end.

Definition authorPubkeys (w : World) : list string :=
  from_Set [] (map pubkey (notes w)).

(** The body of [events.forEach]: the assignment to [map[e.pubkey]] is
    skipped when [JSON.parse] throws.  The keys are public keys of valid
    events, strings of hexadecimal digits, so assigning to the object
    behaves as inserting into a map. *)
Definition record_profile (map : gmap string Json) (e : NostrEvent) : gmap string Json :=
  match JSON_parse (content e) with
  | Some parsed => <[pubkey e := parsed]> map
  | None => map
  end.

(** [queryFn] of the metadata query, for the author list of the
    render that created it. *)
Definition metadata_queryFn (authors_ : list string) : M (gmap string Json) :=
  if (length authors_ =? 0)%nat then ret ∅
  else
    events <~ querySync env (relays env) {| kinds := [0]; authors := Some authors_; limit := None |} ;;
    ret (foldl record_profile ∅ events).

(** [staleTime: 600000]. *)
Definition staleTime : Z := 600000.

(** Modelled from the spec: the cache behind [useQuery], which belongs to
    @tanstack/react-query and is not part of the repository.  An entry is
    what the source keys it by, [['nostr_metadata', authorPubkeys, relays]].
    When the component mounts or the key changes, an enabled query whose
    entry is absent, or was fetched [staleTime] or more ago, runs
    [queryFn] and replaces the entry, stamped with the time of the fetch;
    otherwise the entry is used as it is.  [data: metadata = {}] defaults
    a missing result to the empty object. *)
Definition metadata_useQuery (authors_ : list string) : M (gmap string Json) :=
  let key := (authors_, relays env) in
  entry <~ gets (λ w, metadata_cache w !! key) ;;
  let enabled := (0 <? length authors_)%nat in
  let stale := match entry with
               | None => true
               | Some en => dataUpdatedAt en + staleTime <=? now env
               end in
  if enabled && stale then
    fetched <~ metadata_queryFn authors_ ;;
    setMetadata (λ c, <[key := {| data := fetched; dataUpdatedAt := now env |}]> c) ;;;
    ret fetched
  else
    ret (match entry with Some en => data en | None => ∅ end).

(** *** Media upload *)

(** [uploadToBlossom].  The last statement of the [try] block queues the
    updater [prev => [...prev, data.url]]; [data.url] is read when the
    updater runs. *)
Definition uploadToBlossom (file : File) : M unit :=
  if negb (truthy (userPk env)) then ret tt
  else
    setIsUploading true ;;;
    try_catch_finally
      (let server := default "" (BLOSSOM_SERVERS !! 0%nat) in
       sha256 <~ lift (digest_sha256 file) ;;
       let hash := bytesToHex sha256 in
       let eventTemplate :=
         {| t_kind := 24242;
            t_created_at := now env / 1000;
            t_tags := [["t"; "upload"]; ["x"; hash]];
            t_content := "Upload " +:+ file_name file |} in
       signedEvent <~
         (if truthy (userSk env) then
            lift (finalizeEvent eventTemplate (hexToBytes (default "" (userSk env))))
          else match nostr env with
               | Some agent => signEvent agent eventTemplate
               | None => throw (Error "Login to upload media")
               end) ;;
       authHeader <~ lift (btoa (JSON_stringify signedEvent)) ;;
       response <~ do_fetch env
         {| req_url := server +:+ "/upload";
            req_method := PUT;
            req_headers := [("Authorization", "Nostr " +:+ authHeader)];
            req_body := file |} ;;
       if negb (ok response) then throw (Error "Upload failed")
       else
         data_ <~ lift (json response) ;;
         setAttachments_at_render
           (λ prev, match get data_ "url" with
                    | Return url => Return (prev ++ [url])
                    | Throw e => Throw e
                    end))
      (λ err, alert (message err))
      (setIsUploading false).

(** *** Publishing *)

(** How [Array.prototype.join] renders an element. *)
Definition join_element (v : Value) : string :=
  match v with
  | undefined => ""
  | val JNull => ""
  | val (JString s) => s
  | val j => ToString j
  end.

(** [mutationFn] of the publish mutation. *)
Definition mutationFn (content_ : string) : M NostrEvent :=
  if negb (truthy (userPk env)) then throw (Error "Not logged in")
  else
    attached <~ gets attachments ;;
    let finalContent :=
      if (0 <? length attached)%nat
      then content_ +:+ (LF +:+ LF) +:+ String.concat LF (map join_element attached)
      else content_ in
    let eventTemplate :=
      {| t_kind := 1;
         t_created_at := now env / 1000;
         t_tags := [];
         t_content := finalContent |} in
    event <~
      (if truthy (userSk env) then
         lift (finalizeEvent eventTemplate (hexToBytes (default "" (userSk env))))
       else match nostr env with
            | Some agent => signEvent agent eventTemplate
            | None => throw (Error "No signing method available")
            end) ;;
    publish_any env (relays env) event ;;;
    ret event.

(** [onSuccess]: the updater [(old = []) => [newEvent, ...old]] on the
    key [['nostr_notes', relays]], then the form is cleared. *)
Definition onSuccess (newEvent : NostrEvent) : M unit :=
  setNotes (λ c, <[relays env := newEvent :: default [] (c !! relays env)]> c) ;;;
  setPostContent "" ;;;
  setAttachments (λ _, []).

(** [onError]. *)
Definition onError (e : Exn) : M unit := alert (message e).

(** [publishMutation.mutate(content)]. *)
Definition mutate (content_ : string) : M unit :=
  λ w, match mutationFn content_ w with
       | (Done newEvent, w') => onSuccess newEvent w'
       | (Failed e, w') => onError e w'
       | (Suspended, w') => (Suspended, w')
       end.

(** [disabled] of the Post button:
    [!userPk || publishMutation.isPending ||
     (!postContent.trim() && attachments.length === 0)]. *)
Definition post_disabled (isPending : bool) (w : World) : bool :=
  negb (truthy (userPk env)) || isPending ||
  (String.eqb (trim (postContent w)) "" && (length (attachments w) =? 0)%nat).

(** A click on the Post button, the one place that calls [mutate]:
    [onClick={() => publishMutation.mutate(postContent)}].  A disabled
    button dispatches no click. *)
Definition click_post (isPending : bool) : M unit :=
  λ w, if post_disabled isPending w then (Done tt, w) else mutate (postContent w) w.

End NostalgiaApp.

(** ** The desktop shell of [App] *)

(** [AppId]. *)
Inductive AppId : Type :=
| myComputer | chrome | notepad | paint | doom | gemini
| minesweeper | mediaPlayer | nostalgia | settings.

#[global] Instance AppId_eq_dec : EqDecision AppId.
Proof. solve_decision. Defined.

(** [WindowState], without its [icon], an element that no function reads
    or changes. *)
Record WindowState : Type := mkWindow {
  win_id : AppId;
  title : string;
  isOpen : bool;
  isMinimized : bool;
  zIndex : Z;
  win_x : Z;
  win_y : Z
}.

(** The state of [App] that the window functions use.  [windows] is a
    [Record<AppId, WindowState>], an object with an entry per [AppId]. *)
Record Desktop : Type := mkDesktop {
  windows : AppId → WindowState;
  activeApp : option AppId;
  highestZIndex : Z;
  isStartMenuOpen : bool
}.

(** The initial values of the four [useState] hooks. *)
Definition initial_windows (app : AppId) : WindowState :=
  match app with
  | myComputer => mkWindow myComputer "My Gemtop" false false 10 50 50
  | chrome => mkWindow chrome "Chrome" false false 10 70 70
  | notepad => mkWindow notepad "GemNotes" false false 10 90 90
  | paint => mkWindow paint "GemPaint" false false 10 110 110
  | doom => mkWindow doom "Doom II" false false 10 130 130
  | gemini => mkWindow gemini "Gemini App" false false 10 150 150
  | minesweeper => mkWindow minesweeper "GemSweeper" false false 10 170 170
  | mediaPlayer => mkWindow mediaPlayer "GemPlayer" false false 10 190 190
  | nostalgia => mkWindow nostalgia "Nostalgia" true false 20 100 40
  | settings => mkWindow settings "Settings" false false 10 210 210
  end.

Definition initial_desktop : Desktop :=
  mkDesktop initial_windows (Some nostalgia) 20 false.

(** [{ ...prev, [id]: entry }]. *)
Definition set_window (app : AppId) (entry : WindowState) (prev : AppId → WindowState)
  : AppId → WindowState :=
  λ k, if decide (k = app) then entry else prev k.

(** [openApp].  The handler runs in the render of the state it updates,
    so the [highestZIndex] it reads is the current one. *)
Definition openApp (app : AppId) (d : Desktop) : Desktop :=
  let prev := windows d in
  {| windows :=
       set_window app
         (mkWindow (win_id (prev app)) (title (prev app)) true false
                   (highestZIndex d + 1) (win_x (prev app)) (win_y (prev app)))
         prev;
     activeApp := Some app;
     highestZIndex := highestZIndex d + 1;
     isStartMenuOpen := false |}.

(** [closeApp]. *)
Definition closeApp (app : AppId) (d : Desktop) : Desktop :=
  let prev := windows d in
  {| windows :=
       set_window app
         (mkWindow (win_id (prev app)) (title (prev app)) false (isMinimized (prev app))
                   (zIndex (prev app)) (win_x (prev app)) (win_y (prev app)))
         prev;
     activeApp := if decide (activeApp d = Some app) then None else activeApp d;
     highestZIndex := highestZIndex d;
     isStartMenuOpen := isStartMenuOpen d |}.

(** [minimizeApp]. *)
Definition minimizeApp (app : AppId) (d : Desktop) : Desktop :=
  let prev := windows d in
  {| windows :=
       set_window app
         (mkWindow (win_id (prev app)) (title (prev app)) (isOpen (prev app)) true
                   (zIndex (prev app)) (win_x (prev app)) (win_y (prev app)))
         prev;
     activeApp := if decide (activeApp d = Some app) then None else activeApp d;
     highestZIndex := highestZIndex d;
     isStartMenuOpen := isStartMenuOpen d |}.

(** [focusApp]. *)
Definition focusApp (app : AppId) (d : Desktop) : Desktop :=
  let prev := windows d in
  {| windows :=
       set_window app
         (mkWindow (win_id (prev app)) (title (prev app)) (isOpen (prev app)) false
                   (highestZIndex d + 1) (win_x (prev app)) (win_y (prev app)))
         prev;
     activeApp := Some app;
     highestZIndex := highestZIndex d + 1;
     isStartMenuOpen := isStartMenuOpen d |}.

(** [toggleStartMenu]. *)
Definition toggleStartMenu (d : Desktop) : Desktop :=
  {| windows := windows d;
     activeApp := activeApp d;
     highestZIndex := highestZIndex d;
     isStartMenuOpen := negb (isStartMenuOpen d) |}.

(** [onClick] of the taskbar icon rendered for the entry under [key]:
    [win.isMinimized ? focusApp(win.id)
       : (activeApp === win.id ? minimizeApp(win.id) : focusApp(win.id))]. *)
Definition taskbarClick (key : AppId) (d : Desktop) : Desktop :=
  let win := windows d key in
  if isMinimized win then focusApp (win_id win) d
  else if decide (activeApp d = Some (win_id win)) then minimizeApp (win_id win) d
  else focusApp (win_id win) d.

(** What the user can do to the desktop. *)
Inductive DesktopAction : Type :=
| Open (app : AppId)
| Close (app : AppId)
| Minimize (app : AppId)
| Focus (app : AppId)
| ToggleStart
| Taskbar (key : AppId).

Definition perform (d : Desktop) (a : DesktopAction) : Desktop :=
  match a with
  | Open app => openApp app d
  | Close app => closeApp app d
  | Minimize app => minimizeApp app d
  | Focus app => focusApp app d
  | ToggleStart => toggleStartMenu d
  | Taskbar key => taskbarClick key d
  end.

(** A window is drawn when [win.isOpen && !win.isMinimized]. *)
Definition drawn (d : Desktop) (app : AppId) : bool :=
  isOpen (windows d app) && negb (isMinimized (windows d app)).

(** ** The session of [App] *)

(** The key material held by [App]: the two [useState] values, the
    [localStorage] they are persisted in, and the messages shown. *)
Record Session : Type := mkSession {
  s_userSk : option string;
  s_userPk : option string;
  localStorage : gmap string string;
  s_alerts : list string
}.

(** [useState(localStorage.getItem('nostr_sk'))] and
    [useState(localStorage.getItem('nostr_pk'))]. *)
Definition initial_session (storage : gmap string string) : Session :=
  mkSession (storage !! "nostr_sk") (storage !! "nostr_pk") storage [].

Definition session_alert (msg : string) (s : Session) : Session :=
  mkSession (s_userSk s) (s_userPk s) (localStorage s) (s_alerts s ++ [msg]).

(** [setUserSk(sk); setUserPk(pk)]. *)
Definition set_keys (sk pk : option string) (s : Session) : Session :=
  mkSession sk pk (localStorage s) (s_alerts s).

(** [localStorage.setItem(key, value)].  The browser can refuse a write,
    when the quota is exhausted, and the call throws then; [accepts] says
    which writes the browser takes. *)
Definition setItem (accepts : gmap string string → string → string → bool)
    (key value : string) (s : Session) : Completion Session :=
  if accepts (localStorage s) key value
  then Return (mkSession (s_userSk s) (s_userPk s) (<[key := value]> (localStorage s)) (s_alerts s))
  else Throw (Raised "QuotaExceededError" "The quota has been exceeded.").

(** [localStorage.removeItem(key)]. *)
Definition removeItem (key : string) (s : Session) : Session :=
  mkSession (s_userSk s) (s_userPk s) (delete key (localStorage s)) (s_alerts s).

(** [loginWithSk].  [decode] is [nip19.decode(sk).data] of nostr-tools,
    which throws on a malformed key.  The state is set before the storage
    is written, all inside the [try] block. *)
Definition loginWithSk `{Runtime} (decode : string → Completion (list Byte.byte))
    (accepts : gmap string string → string → string → bool)
    (sk : string) (s : Session) : Session :=
  let hexSk :=
    if String.prefix "nsec" sk then
      match decode sk with
      | Return data_ => Return (bytesToHex data_)
      | Throw e => Throw e
      end
    else Return sk in
  match hexSk with
  | Throw _ => session_alert "Invalid secret key" s
  | Return hexSk =>
      match getPublicKey (hexToBytes hexSk) with
      | Throw _ => session_alert "Invalid secret key" s
      | Return pk =>
          let s1 := set_keys (Some hexSk) (Some pk) s in
          match setItem accepts "nostr_sk" hexSk s1 with
          | Throw _ => session_alert "Invalid secret key" s1
          | Return s2 =>
              match setItem accepts "nostr_pk" pk s2 with
              | Throw _ => session_alert "Invalid secret key" s2
              | Return s3 => session_alert "Logged in successfully!" s3
              end
          end
      end
  end.

(** [loginWithExtension].  [extension] is [window.nostr]: absent, or how
    far its [getPublicKey()] got; while the agent has not answered, the
    function waits and nothing has changed. *)
Definition loginWithExtension (accepts : gmap string string → string → string → bool)
    (extension : option (Outcome string)) (s : Session) : Session :=
  match extension with
  | Some (Done pk) =>
      let s1 := set_keys None (Some pk) s in
      match setItem accepts "nostr_pk" pk s1 with
      | Throw _ => session_alert "Extension login failed" s1
      | Return s2 => session_alert "Logged in with extension!" (removeItem "nostr_sk" s2)
      end
  | Some (Failed _) => session_alert "Extension login failed" s
  | Some Suspended => s
  | None => session_alert "Nostr extension not found" s
  end.

(** [logout]. *)
Definition logout (s : Session) : Session :=
  removeItem "nostr_pk" (removeItem "nostr_sk" (set_keys None None s)).

(** What the user can do to the session. *)
Inductive SessionAction : Type :=
| LoginWithSk (sk : string)
| LoginWithExtension (extension : option (Outcome string))
| Logout.

Definition session_step `{Runtime} (decode : string → Completion (list Byte.byte))
    (accepts : gmap string string → string → string → bool)
    (s : Session) (a : SessionAction) : Session :=
  match a with
  | LoginWithSk sk => loginWithSk decode accepts sk s
  | LoginWithExtension extension => loginWithExtension accepts extension s
  | Logout => logout s
  end.

(** The props that [App] hands to [NostalgiaApp] for a session. *)
Definition with_session (s : Session) (env : Env) : Env :=
  mkEnv (relays env) (s_userPk s) (s_userSk s) (nostr env) (now env)
        (relay_events env) (arrival env) (relay_write env) (settled_writes env) (fetch env).

(** ** [SettingsApp] *)

(** The relay list of [App] and the text of the input field. *)
Record RelaySettings : Type := mkSettings {
  relay_list : list string;
  newRelay : string
}.

(** [relays.includes(url)]. *)
Definition includes (urls : list string) (url : string) : bool :=
  existsb (String.eqb url) urls.

(** [addRelay]. *)
Definition addRelay (st : RelaySettings) : RelaySettings :=
  if negb (String.eqb (newRelay st) "") && negb (includes (relay_list st) (newRelay st))
  then mkSettings (relay_list st ++ [newRelay st]) ""
  else st.

(** [removeRelay]. *)
Definition removeRelay (url : string) (st : RelaySettings) : RelaySettings :=
  mkSettings (List.filter (λ r, negb (String.eqb r url)) (relay_list st)) (newRelay st).

(** [try { body } catch (e) { handler }]. *)
Definition try_catch (body : M unit) (handler : Exn → M unit) : M unit :=
  λ w, match body w with
       | (Failed e, w') => handler e w'
       | r => r
       end.

(** [syncNip65].  The component receives neither the pool nor the secret
    key, and the write to the relays is commented out in the source. *)
Definition syncNip65 (env : Env) : M unit :=
  if negb (truthy (userPk env)) then ret tt
  else
    try_catch
      (let eventTemplate :=
         {| t_kind := 10002;
            t_created_at := now env / 1000;
            t_tags := map (λ r, ["r"; r]) (relays env);
            t_content := "" |} in
       event <~
         (match nostr env with
          | Some agent => signEvent agent eventTemplate
          | None => throw (Error "Login with extension to sync NIP-65")
          end) ;;
       alert "NIP-65 Relay list published!")
      (λ e, alert (message e)).

(** ** The attachment strip *)

(** [xs.filter((_, i) => keep(i))], counting from [i]. *)
Fixpoint filter_index {A} (keep : nat → bool) (i : nat) (xs : list A) : list A :=
  match xs with
  | [] => []
  | x :: xs' => if keep i then x :: filter_index keep (S i) xs' else filter_index keep (S i) xs'
  end.

(** The updater of the remove button:
    [prev => prev.filter((_, i) => i !== idx)]. *)
Definition removeAttachment (idx : nat) (prev : list Value) : list Value :=
  filter_index (λ i, negb (i =? idx)%nat) 0 prev.

(** ** Vocabulary of the statements *)

(** [a] may stand before [b]: it is not older. *)
Definition not_older (a b : NostrEvent) : Prop := created_at b ≤ created_at a.

(** The filter of the notes query. *)
Definition notes_filter : Filter := {| kinds := [1]; authors := None; limit := Some 50 |}.

(** The filter of the metadata query for an author list. *)
Definition metadata_filter (authors_ : list string) : Filter :=
  {| kinds := [0]; authors := Some authors_; limit := None |}.

(** The template built by the publish mutation. *)
Definition note_template `{Runtime} (env : Env) (attached : list Value) (content_ : string)
  : EventTemplate :=
  {| t_kind := 1;
     t_created_at := now env / 1000;
     t_tags := [];
     t_content :=
       if (0 <? length attached)%nat
       then content_ +:+ (LF +:+ LF) +:+ String.concat LF (map join_element attached)
       else content_ |}.

(** The template built by [uploadToBlossom] for a digest. *)
Definition upload_template (env : Env) (file : File) (digest : list Byte.byte) : EventTemplate :=
  {| t_kind := 24242;
     t_created_at := now env / 1000;
     t_tags := [["t"; "upload"]; ["x"; bytesToHex digest]];
     t_content := "Upload " +:+ file_name file |}.

(** The request built by [uploadToBlossom] for an encoded credential. *)
Definition upload_request (file : File) (authHeader : string) : HttpRequest :=
  {| req_url := "https://blossom.nostr.wine/upload";
     req_method := PUT;
     req_headers := [("Authorization", "Nostr " +:+ authHeader)];
     req_body := file |}.

(** Who signs a template and how far the signing got: the local key when
    there is one, else the agent; [None] when there is neither. *)
Definition signing `{Runtime} (env : Env) (t : EventTemplate) : option (Outcome NostrEvent) :=
  if truthy (userSk env)
  then Some (completed (finalizeEvent t (hexToBytes (default "" (userSk env)))))
  else match nostr env with
       | Some agent => Some (agent t)
       | None => None
       end.


(** How [uploadToBlossom] ends after a failure of one of its steps: the
    [catch] block shows the message and the [finally] block clears the
    flag. *)
Definition upload_failed (e : Exn) (w : World) : Outcome unit * World :=
  (Done tt, (setIsUploading false (alert (message e) w).2).2).

(** How it ends after the last step, for the parsed body of the
    response. *)
Definition upload_recorded (body : Json) (w : World) : Outcome unit * World :=
  (Done tt,
   (setIsUploading false
      (setAttachments_at_render
         (λ prev, match get body "url" with
                  | Return url => Return (prev ++ [url])
                  | Throw e => Throw e
                  end) w).2).2).

(** The order the specification asks of the feed: newer first, and among
    events of one timestamp the smaller [id] first. *)
Definition spec_precedes (a b : NostrEvent) : bool :=
  (created_at b <? created_at a) ||
  ((created_at a =? created_at b) && String.leb (id a) (id b)).

Fixpoint spec_ordered (feed : list NostrEvent) : bool :=
  match feed with
  | [] => true
  | a :: feed' => forallb (spec_precedes a) feed' && spec_ordered feed'
  end.

(** The parsed contents of the events of one author, in the order they
    were delivered. *)
Definition parsed_versions `{Runtime} (pk : string) (events : list NostrEvent) : list Json :=
  omap (λ e, if decide (pubkey e = pk) then JSON_parse (content e) else None) events.


(** What every reachable state of the desktop satisfies. *)
Record desktop_ok (d : Desktop) : Prop := {
  ok_id : ∀ k, win_id (windows d k) = k;
  ok_below : ∀ k, zIndex (windows d k) ≤ highestZIndex d;
  ok_base : 20 ≤ highestZIndex d;
  ok_open : ∀ k, isOpen (windows d k) = true → 20 ≤ zIndex (windows d k);
  ok_distinct : ∀ j k, 20 ≤ zIndex (windows d j) →
                       zIndex (windows d j) = zIndex (windows d k) → j = k;
  ok_active : ∀ k, activeApp d = Some k → isMinimized (windows d k) = false;
  ok_fixed : ∀ k, title (windows d k) = title (initial_windows k) ∧
                  win_x (windows d k) = win_x (initial_windows k) ∧
                  win_y (windows d k) = win_y (initial_windows k)
}.

(** The state and the storage agree on the key material. *)
Definition session_synced (s : Session) : Prop :=
  localStorage s !! "nostr_sk" = s_userSk s ∧ localStorage s !! "nostr_pk" = s_userPk s.

(** ** Sample data *)

Definition hex_value (c : Ascii.ascii) : option Z :=
  let n := Z.of_nat (Ascii.nat_of_ascii c) in
  if (48 <=? n) && (n <=? 57) then Some (n - 48)
  else if (97 <=? n) && (n <=? 102) then Some (n - 87)
  else if (65 <=? n) && (n <=? 70) then Some (n - 55)
  else None.

(** [parseInt(s, 16)] on a string of at most two characters that starts
    with neither white space nor a sign. *)
Definition sample_parseInt16 (s : string) : option Z :=
  match s with
  | String c1 (String c2 _) =>
      match hex_value c1, hex_value c2 with
      | Some a, Some b => Some (16 * a + b)
      | Some a, None => Some a
      | None, _ => None
      end
  | String c1 EmptyString => hex_value c1
  | EmptyString => None
  end.

(** A runtime to run the examples with.  The properties below hold for
    every runtime; the examples only need each call to return something,
    [JSON.parse] to be right on the four documents they use, [trim] to be
    right on a text without white space at its ends, and the key functions
    to take a secret key of 32 bytes and no other. *)
Definition sample_runtime : Runtime :=
  {| parseInt16 := sample_parseInt16;
     digest_sha256 := λ file, Return (file_bytes file);
     JSON_stringify := λ e, id e;
     btoa := λ s, Return s;
     JSON_parse := λ s,
       if String.eqb s "{}" then Some (JObject [])
       else if String.eqb s "[]" then Some (JArray [])
       else if String.eqb s "null" then Some JNull
       else if String.eqb s "true" then Some (JBool true)
       else None;
     ToString := λ _, "[object Object]";
     trim := λ s, s;
     getPublicKey := λ sk,
       if (length sk =? 32)%nat then Return ("pk" +:+ bytesToHex (rev sk))
       else Throw (Error "expected 32 bytes of private key");
     getEventHash := λ pk t, pk +:+ ":" +:+ t_content t;
     schnorr_sign := λ h sk, bytesToHex (rev sk) +:+ ":" +:+ h |}.

(** A secret key and how it is written in hexadecimal. *)
Definition sample_key : list Byte.byte :=
  [Byte.x01; Byte.x02; Byte.x03; Byte.x04; Byte.x05; Byte.x06; Byte.x07; Byte.x08;
   Byte.x09; Byte.x0a; Byte.x0b; Byte.x0c; Byte.x0d; Byte.x0e; Byte.x0f; Byte.x10;
   Byte.x11; Byte.x12; Byte.x13; Byte.x14; Byte.x15; Byte.x16; Byte.x17; Byte.x18;
   Byte.x19; Byte.x1a; Byte.x1b; Byte.x1c; Byte.x1d; Byte.x1e; Byte.x1f; Byte.x20].
Definition sample_key_hex : string :=
  "0102030405060708090a0b0c0d0e0f101112131415161718191a1b1c1d1e1f20".

Definition empty_world : World := mkWorld [] false "" ∅ ∅ [] [] [] [] [] None.

(** A note has been typed. *)
Definition draft_world : World := mkWorld [] false "hello" ∅ ∅ [] [] [] [] [] None.

Definition three_relays : list string := ["wss://relay.one"; "wss://relay.two"; "wss://relay.three"].

(** An agent that signs what it is given. *)
Definition sample_agent (t : EventTemplate) : Outcome NostrEvent :=
  Done {| id := "e0"; pubkey := "alice"; created_at := t_created_at t; kind := t_kind t;
          tags := t_tags t; content := t_content t; sig := "s0" |}.

(** The event that [sample_agent] returns for a note. *)
Definition sample_event (env : Env) (content_ : string) : NostrEvent :=
  {| id := "e0"; pubkey := "alice"; created_at := now env / 1000; kind := 1;
     tags := []; content := content_; sig := "s0" |}.

(** An agent whose prompt is left open. *)
Definition silent_agent (t : EventTemplate) : Outcome NostrEvent := Suspended.

Definition no_events (url : string) (f : Filter) : option (list NostrEvent) := None.
Definition no_server (r : HttpRequest) : Completion HttpResponse :=
  Throw (Raised "TypeError" "Failed to fetch").
Definition all_fail (i : nat) (url : string) (e : NostrEvent) : Settled string :=
  Rejected (Raised "Error" "connection failed").

(** The second endpoint acknowledges, the others fail. *)
Definition second_acks (i : nat) (url : string) (e : NostrEvent) : Settled string :=
  if (i =? 1)%nat then Fulfilled "" else Rejected (Raised "Error" "connection failed").

(** Logged in through the agent; the first write has failed, the second
    has been acknowledged, the third is still in flight. *)
Definition env_publish : Env :=
  mkEnv three_relays (Some "alice") None (Some sample_agent) 1700000000000
        no_events [] second_acks [0%nat; 1%nat] no_server.

(** The same session with no endpoint configured. *)
Definition env_no_relays : Env :=
  mkEnv [] (Some "alice") None (Some sample_agent) 1700000000000
        no_events [] second_acks [] no_server.

(** No key, no agent, no public key. *)
Definition env_logged_out : Env :=
  mkEnv three_relays None None None 1700000000000 no_events [] all_fail [] no_server.

(** A public key is stored, but there is neither key nor agent. *)
Definition env_no_signer : Env :=
  mkEnv three_relays (Some "alice") None None 1700000000000 no_events [] all_fail [] no_server.

(** A local key and an agent. *)
Definition env_both : Env :=
  mkEnv three_relays (Some "alice") (Some sample_key_hex) (Some sample_agent) 1700000000000
        no_events [] second_acks [1%nat] no_server.

(** Two notes of the same second on two endpoints. *)
Definition note_a : NostrEvent := mkEvent "aa" "alice" 100 1 [] "first" "s1".
Definition note_b : NostrEvent := mkEvent "bb" "bob" 100 1 [] "second" "s2".
Definition two_relays : list string := ["wss://relay.one"; "wss://relay.two"].
Definition one_note_each (url : string) (f : Filter) : option (list NostrEvent) :=
  if String.eqb url "wss://relay.one" then Some [note_a]
  else if String.eqb url "wss://relay.two" then Some [note_b]
  else None.
Definition env_one_first : Env :=
  mkEnv two_relays None None None 0 one_note_each ["wss://relay.one"; "wss://relay.two"]
        all_fail [] no_server.
Definition env_two_first : Env :=
  mkEnv two_relays None None None 0 one_note_each ["wss://relay.two"; "wss://relay.one"]
        all_fail [] no_server.

(** The scenario of the specification: [100, 300] on the first endpoint,
    [200, 300] on the second, the third times out. *)
Definition note_100 : NostrEvent := mkEvent "01" "alice" 100 1 [] "a" "s".
Definition note_200 : NostrEvent := mkEvent "02" "bob" 200 1 [] "b" "s".
Definition note_300 : NostrEvent := mkEvent "03" "carol" 300 1 [] "c" "s".
Definition scenario_events (url : string) (f : Filter) : option (list NostrEvent) :=
  if String.eqb url "wss://relay.one" then Some [note_100; note_300]
  else if String.eqb url "wss://relay.two" then Some [note_200; note_300]
  else None.
Definition env_scenario : Env :=
  mkEnv three_relays None None None 0 scenario_events
        ["wss://relay.two"; "wss://relay.one"] all_fail [] no_server.

(** Two versions of the profile of one author, held by two endpoints; the
    content of the second does not parse. *)
Definition profile_ok : NostrEvent := mkEvent "p1" "alice" 10 0 [] "{}" "s".
Definition profile_bad : NostrEvent := mkEvent "p2" "alice" 20 0 [] "oops" "s".
Definition profile_versions (url : string) (f : Filter) : option (list NostrEvent) :=
  if String.eqb url "wss://relay.one" then Some [profile_ok]
  else if String.eqb url "wss://relay.two" then Some [profile_bad]
  else None.
Definition env_profiles (t : Z) : Env :=
  mkEnv two_relays None None None t profile_versions ["wss://relay.one"; "wss://relay.two"]
        all_fail [] no_server.

(** The world after the metadata of [alice] has been looked up at time 0. *)
Definition world_after_lookup : World :=
  (@metadata_useQuery sample_runtime (env_profiles 0) ["alice"] empty_world).2.

(** A content server that answers 200 with the given body. *)
Definition server_ok (body : Json) (r : HttpRequest) : Completion HttpResponse :=
  Return {| ok := true; json := Return body |}.
Definition env_upload (body : Json) : Env :=
  mkEnv three_relays (Some "alice") None (Some sample_agent) 1700000000000
        no_events [] all_fail [] (server_ok body).
Definition sample_file : File := mkFile "cat.png" [Byte.x89; Byte.x50; Byte.x4e; Byte.x47].

(** Every write has settled, all as failures. *)
Definition env_all_settled : Env :=
  mkEnv three_relays (Some "alice") None (Some sample_agent) 1700000000000
        no_events [] all_fail [2%nat; 0%nat; 1%nat] no_server.

(** The agent has been asked and has not answered; no endpoint is
    configured. *)
Definition env_waiting : Env :=
  mkEnv [] (Some "alice") None (Some silent_agent) 1700000000000
        no_events [] all_fail [] no_server.

(** A storage with room for every write, and one that is full. *)
Definition roomy_storage (storage : gmap string string) (key value : string) : bool := true.

(** [nip19.decode] on the one key of the examples. *)
Definition sample_decode (sk : string) : Completion (list Byte.byte) :=
  if String.eqb sk "nsec1sample" then Return sample_key
  else Throw (Error "invalid key").

(** A session that starts with an empty storage. *)
Definition fresh_session : Session := initial_session ∅.

(** One relay listed, another typed into the field. *)
Definition settings_typing : RelaySettings :=
  mkSettings ["wss://relay.one"] "wss://relay.two".

(** * Properties *)

(** ** [Promise.any] *)

Section PromiseAnyFacts.
Context {A : Type}.
Implicit Types (outs : list (Settled A)) (st : PromiseAny.state A)
               (sched : list nat) (slots : list (option Exn)).

Import PromiseAny.

Lemma first_ack_app outs p q :
  first_ack outs (p ++ q) =
  match first_ack outs p with Some v => Some v | None => first_ack outs q end.
Proof.
  induction p as [|i p IH]; simpl; [done|].
  destruct (outs !! i) as [[v|e]|]; auto.
Qed.

Lemma first_ack_split outs p i q v :
  (∀ j v', j ∈ p → outs !! j ≠ Some (Fulfilled v')) →
  outs !! i = Some (Fulfilled v) →
  first_ack outs (p ++ i :: q) = Some v.
Proof.
  intros Hp Hi. rewrite first_ack_app.
  assert (first_ack outs p = None) as ->.
  { induction p as [|j p IH]; simpl; [done|].
    destruct (outs !! j) as [[v'|e]|] eqn:Hj.
    - exfalso. eapply (Hp j v'); [left|done].
    - apply IH. intros k v' Hk. apply Hp. by right.
    - apply IH. intros k v' Hk. apply Hp. by right. }
  simpl. by rewrite Hi.
Qed.

Lemma filled_length slots : (length (filled slots) ≤ length slots)%nat.
Proof.
  unfold filled. induction slots as [|[e|] slots IH]; csimpl; lia.
Qed.

Lemma filled_insert slots i e :
  slots !! i = Some None →
  length (filled (<[i := Some e]> slots)) = S (length (filled slots)).
Proof.
  unfold filled. revert i.
  induction slots as [|s slots IH]; intros [|i] Hi; simplify_eq/=; [done|].
  destruct s; csimpl; rewrite IH; auto.
Qed.

Lemma filled_full slots outs :
  Forall2 slot_of slots outs →
  length (filled slots) = length outs →
  filled slots = causes outs ∧ Forall (λ o, acks o = false) outs.
Proof.
  induction 1 as [|s o slots outs Hso HF IH]; [done|].
  pose proof (filled_length slots) as Hle.
  rewrite (Forall2_length _ _ _ HF) in Hle.
  unfold filled, causes in *. destruct s as [e|]; csimpl; intros Hlen.
  - rewrite (Hso e eq_refl). csimpl.
    destruct IH as [-> ?]; [lia|]. split; [done|]. by constructor.
  - lia.
Qed.

Lemma any_inv_init outs : any_inv outs [] (init (length outs)).
Proof.
  split; simpl.
  - induction outs; simpl; constructor; [by intros ?|done].
  - unfold filled. induction outs as [|o outs IH]; csimpl in *; [done|lia].
  - intros i e Hi. by apply elem_of_nil in Hi.
  - destruct outs; done.
Qed.

Lemma any_inv_no_ack_pending outs p st i v :
  any_inv outs p st → outs !! i = Some (Fulfilled v) → first_ack outs p = None →
  status st = None.
Proof.
  intros [Hs Hc _ Hst] Hi Hp. rewrite Hst, Hp.
  destruct (remaining st) eqn:Hr; [|done]. exfalso.
  destruct (filled_full _ _ Hs) as [_ Hall]; [lia|].
  rewrite Forall_lookup in Hall. by specialize (Hall _ _ Hi).
Qed.

Lemma any_inv_step outs p st i :
  any_inv outs p st → any_inv outs (p ++ [i]) (step outs st i).
Proof.
  intros Hinv. pose proof Hinv as [Hs Hc Hseen Hst].
  unfold step. destruct (outs !! i) as [[v|e]|] eqn:Hi.
  - (* the promise fulfils *)
    split; unfold settle.
    + by destruct (status st).
    + by destruct (status st).
    + intros j e' Hj Hje'. apply elem_of_app in Hj as [Hj|Hj%list_elem_of_singleton].
      * destruct (status st); simpl; eauto.
      * congruence.
    + rewrite first_ack_app. simpl. rewrite Hi.
      destruct (first_ack outs p) as [v'|] eqn:Hp.
      * by rewrite Hst.
      * rewrite (any_inv_no_ack_pending _ _ _ _ _ Hinv Hi Hp). done.
  - (* the promise rejects *)
    unfold reject_element.
    destruct (errors st !! i) as [[e'|]|] eqn:Hslot.
    + (* its handler has already run *)
      split; try done.
      * intros j e'' Hj Hje''. apply elem_of_app in Hj as [Hj|Hj%list_elem_of_singleton]; [eauto|].
        subst j. rewrite Hslot. f_equal. f_equal.
        pose proof (Forall2_lookup_lr _ _ _ _ _ _ Hs Hslot Hi e' eq_refl). congruence.
      * rewrite first_ack_app. simpl. rewrite Hi.
        rewrite Hst. by destruct (first_ack outs p).
    + (* first run of its handler *)
      pose proof (filled_insert _ _ e Hslot) as Hfill.
      assert (Forall2 slot_of (<[i := Some e]> (errors st)) outs) as Hs'.
      { rewrite <- (list_insert_id outs i (Rejected e)) by done.
        apply Forall2_insert; [done|]. intros ? [= ->]. done. }
      assert (remaining st ≠ 0)%nat as Hr.
      { intros Hr. rewrite Hr in Hc. simpl in Hc.
        pose proof (length_insert (errors st) i (Some e)) as Hl.
        pose proof (Forall2_length _ _ _ Hs) as Hl'.
        pose proof (filled_length (<[i := Some e]> (errors st))).
        lia. }
      assert (∀ j e'', j ∈ p ++ [i] → outs !! j = Some (Rejected e'') →
              <[i := Some e]> (errors st) !! j = Some (Some e'')) as Hseen'.
      { intros j e'' Hj Hje''. destruct (decide (i = j)) as [->|Hne].
        - rewrite list_lookup_insert_eq; [congruence|]. by eapply lookup_lt_Some.
        - rewrite list_lookup_insert_ne by done.
          apply elem_of_app in Hj as [Hj|Hj%list_elem_of_singleton]; [eauto|congruence]. }
      assert (first_ack outs (p ++ [i]) = first_ack outs p) as Hfa.
      { rewrite first_ack_app. simpl. rewrite Hi. by destruct (first_ack outs p). }
      simpl. destruct (remaining st) as [|[|r]] eqn:Hrem; [done| |].
      * (* it was the last one *)
        simpl. unfold settle. simpl. rewrite Hst.
        destruct (first_ack outs p) as [v|] eqn:Hp.
        -- split; simpl; try done; [lia|]. by rewrite Hfa.
        -- split; simpl; try done; [lia|]. by rewrite Hfa.
      * simpl. split; simpl; try done; [lia|].
        rewrite Hfa, Hst. by destruct (first_ack outs p).
    + (* no such slot *)
      apply lookup_ge_None in Hslot. apply lookup_lt_Some in Hi.
      pose proof (Forall2_length _ _ _ Hs). lia.
  - (* no such promise *)
    split; try done.
    + intros j e Hj Hje. apply elem_of_app in Hj as [Hj|Hj%list_elem_of_singleton]; [eauto|congruence].
    + rewrite first_ack_app. simpl. rewrite Hi, Hst. by destruct (first_ack outs p).
Qed.

Lemma any_inv_run outs sched : any_inv outs sched (run outs sched).
Proof.
  unfold run. induction sched as [|i sched IH] using rev_ind.
  - apply any_inv_init.
  - rewrite foldl_app. simpl. by apply any_inv_step.
Qed.

Lemma filled_all slots :
  (∀ i, (i < length slots)%nat → ∃ e, slots !! i = Some (Some e)) →
  length (filled slots) = length slots.
Proof.
  unfold filled. induction slots as [|s slots IH]; intros Hall; [done|].
  destruct (Hall 0%nat) as [e He]; [simpl; lia|]. simplify_eq/=. csimpl.
  rewrite IH; [done|]. intros i Hi. apply (Hall (S i)). simpl. lia.
Qed.

(** The first acknowledgement of the schedule decides. *)
Lemma any_first_ack outs sched v :
  first_ack outs sched = Some v →
  status (run outs sched) = Some (Fulfilled v).
Proof.
  intros Hv. rewrite (inv_status _ _ _ (any_inv_run outs sched)). by rewrite Hv.
Qed.

(** A rejection means that every input rejected, and carries their
    reasons in input order. *)
Lemma any_rejected outs sched e :
  status (run outs sched) = Some (Rejected e) →
  Forall (λ o, acks o = false) outs ∧
  e = AggregateError (causes outs) ∧
  length (causes outs) = length outs.
Proof.
  destruct (any_inv_run outs sched) as [Hs Hc _ Hst]. rewrite Hst.
  destruct (first_ack outs sched); [done|].
  destruct (remaining (run outs sched)); [|done].
  intros [= <-]. destruct (filled_full _ _ Hs) as [Hf Hall]; [lia|].
  rewrite <- Hf. split_and!; [done..|lia].
Qed.

(** Once every input has rejected, the call rejects. *)
Lemma any_all_rejected outs sched :
  Forall (λ o, acks o = false) outs →
  (∀ i, (i < length outs)%nat → i ∈ sched) →
  status (run outs sched) = Some (Rejected (AggregateError (causes outs))).
Proof.
  intros Hall Hcov.
  destruct (any_inv_run outs sched) as [Hs Hc Hseen Hst]. rewrite Hst.
  assert (first_ack outs sched = None) as ->.
  { clear -Hall. rewrite Forall_lookup in Hall.
    induction sched as [|i sched IH]; simpl; [done|].
    destruct (outs !! i) as [[v|e]|] eqn:Hi; [|done..].
    by specialize (Hall _ _ Hi). }
  assert (length (filled (errors (run outs sched))) = length outs) as Hlen.
  { rewrite <- (Forall2_length _ _ _ Hs). apply filled_all.
    rewrite (Forall2_length _ _ _ Hs). intros i Hi.
    destruct (lookup_lt_is_Some_2 outs i Hi) as [[v|e] Ho].
    - rewrite Forall_lookup in Hall. by specialize (Hall _ _ Ho).
    - exists e. apply Hseen; [by apply Hcov|done]. }
  destruct (filled_full _ _ Hs Hlen) as [-> _].
  destruct (remaining (run outs sched)); [done|lia].
Qed.

(** With no input the call is rejected whatever happens next. *)
Lemma any_run_nil sched :
  status (run ([] : list (Settled A)) sched) = Some (Rejected (AggregateError [])).
Proof.
  unfold run. induction sched as [|i sched IH] using rev_ind; [done|].
  rewrite foldl_app. simpl. unfold step. by rewrite lookup_nil.
Qed.

End PromiseAnyFacts.

(** ** The utilities *)

Lemma string_length_append (s t : string) :
  String.length (s +:+ t) = (String.length s + String.length t)%nat.
Proof. induction s as [|c s IH]; simpl; [done|]. by rewrite IH. Qed.

Lemma bytesToHex_length (bytes : list Byte.byte) :
  String.length (bytesToHex bytes) = (2 * length bytes)%nat.
Proof.
  unfold bytesToHex. induction bytes as [|b bytes IH]; [done|].
  change (map _ (b :: bytes)) with
    (padStart2 (toString16 b) :: map (λ b, padStart2 (toString16 b)) bytes).
  assert (∀ s l, String.length (String.concat "" (s :: l)) =
                 (String.length s + String.length (String.concat "" l))%nat) as Hcat.
  { intros s [|s' l]; simpl; [lia|]. by rewrite !string_length_append. }
  assert (String.length (padStart2 (toString16 b)) = 2%nat) as Hb by (by destruct b).
  rewrite Hcat, IH, Hb. simpl. lia.
Qed.

Example bytesToHex_sample :
  bytesToHex [Byte.x89; Byte.x50; Byte.x0e; Byte.x00] = "89500e00".
Proof. reflexivity. Qed.

Example hexToBytes_sample :
  @hexToBytes sample_runtime "00ff1" = [Byte.x00; Byte.xff].
Proof. reflexivity. Qed.

(** ** Publishing to the relays *)

Lemma pool_publish_length env urls event :
  length (pool_publish env urls event) = length urls.
Proof. apply length_imap. Qed.

(** C1.  [await Promise.any(pool.publish(relays, event))] issues one write
    per configured endpoint.  It completes successfully with the first
    acknowledgement among the writes that have settled, whichever other
    writes are still in flight or settle afterwards.  When it fails, every
    write has failed and the error is an [AggregateError] whose [errors]
    are the reasons of the writes, one per endpoint; conversely, once all
    writes have settled as failures it fails in this way. *)
Theorem publish_first_ack_or_aggregate (env : Env) (event : NostrEvent) (w : World) :
  let outs := pool_publish env (relays env) event in
  length outs = length (relays env) ∧
  (∀ p i q v,
     settled_writes env = p ++ i :: q →
     (∀ j v', j ∈ p → outs !! j ≠ Some (Fulfilled v')) →
     outs !! i = Some (Fulfilled v) →
     (publish_any env (relays env) event w).1 = Done v) ∧
  (∀ e,
     (publish_any env (relays env) event w).1 = Failed e →
     Forall (λ o, PromiseAny.acks o = false) outs ∧
     e = AggregateError (PromiseAny.causes outs) ∧
     length (PromiseAny.causes outs) = length (relays env)) ∧
  (Forall (λ o, PromiseAny.acks o = false) outs →
   (∀ i, (i < length (relays env))%nat → i ∈ settled_writes env) →
   (publish_any env (relays env) event w).1 = Failed (AggregateError (PromiseAny.causes outs))).
Proof.
  intros outs. pose proof (pool_publish_length env (relays env) event) as Hlen.
  fold outs in Hlen. unfold publish_any, bind, log_relay_writes, modify. fold outs.
  split_and!.
  - done.
  - intros p i q v Hsched Hp Hi.
    rewrite (any_first_ack outs (settled_writes env) v); [done|].
    rewrite Hsched. by apply first_ack_split.
  - intros e.
    destruct (PromiseAny.status (PromiseAny.run outs (settled_writes env)))
      as [[v|e']|] eqn:Hst; simpl; [done| |done].
    intros [= ->]. rewrite <- Hlen. by eapply any_rejected.
  - intros Hall Hcov. rewrite any_all_rejected; [done|done|].
    intros i Hi. apply Hcov. lia.
Qed.

(** ** The order of the feed *)

Section SortFacts.

Lemma sort_insert_perm x l : sort_insert by_created_at_desc x l ≡ₚ x :: l.
Proof.
  induction l as [|y l IH]; simpl; [done|].
  destruct (by_created_at_desc x y <=? 0); [done|].
  rewrite IH. apply perm_swap.
Qed.

Lemma js_sort_perm l : js_sort by_created_at_desc l ≡ₚ l.
Proof.
  induction l as [|x l IH]; simpl; [done|].
  rewrite sort_insert_perm. by rewrite IH.
Qed.

Lemma sort_insert_sorted x l :
  StronglySorted not_older l → StronglySorted not_older (sort_insert by_created_at_desc x l).
Proof.
  induction 1 as [|y l Hl IH Hy]; simpl.
  - repeat constructor.
  - destruct (by_created_at_desc x y <=? 0) eqn:Hc.
    + apply Z.leb_le in Hc. unfold by_created_at_desc in Hc.
      constructor; [by constructor|].
      constructor; [unfold not_older; lia|].
      eapply Forall_impl; [exact Hy|]. unfold not_older. intros z Hz. lia.
    + apply Z.leb_gt in Hc. unfold by_created_at_desc in Hc.
      constructor; [done|].
      rewrite sort_insert_perm. constructor; [unfold not_older; lia|done].
Qed.

Lemma js_sort_sorted l : StronglySorted not_older (js_sort by_created_at_desc l).
Proof.
  induction l as [|x l IH]; simpl; [constructor|]. by apply sort_insert_sorted.
Qed.

(** Stability: the events of one timestamp keep their order. *)
Lemma sort_insert_stable t x l :
  filter (λ e, created_at e = t) (sort_insert by_created_at_desc x l) =
  filter (λ e, created_at e = t) (x :: l).
Proof.
  induction l as [|y l IH]; simpl; [done|].
  destruct (by_created_at_desc x y <=? 0) eqn:Hc; [done|].
  apply Z.leb_gt in Hc. unfold by_created_at_desc in Hc.
  rewrite (filter_cons _ y), IH, !filter_cons.
  destruct (decide (created_at y = t)), (decide (created_at x = t)); try done. lia.
Qed.

Lemma js_sort_stable t l :
  filter (λ e, created_at e = t) (js_sort by_created_at_desc l) =
  filter (λ e, created_at e = t) l.
Proof.
  induction l as [|x l IH]; simpl; [done|].
  rewrite sort_insert_stable, !filter_cons, IH. done.
Qed.

End SortFacts.

(** ** Merging the answers of the endpoints *)

Lemma existsb_eqb_elem (x : string) (seen : list string) :
  existsb (String.eqb x) seen = true ↔ x ∈ seen.
Proof.
  rewrite existsb_exists. split.
  - intros (y & Hy%list_elem_of_In & ->%String.eqb_eq). done.
  - intros Hx. exists x. split; [by apply list_elem_of_In|apply String.eqb_refl].
Qed.

Lemma merge_by_id_sound seen events e :
  e ∈ merge_by_id seen events → e ∈ events ∧ id e ∉ seen.
Proof.
  revert seen. induction events as [|e' events IH]; intros seen; simpl.
  - by intros ?%elem_of_nil.
  - destruct (existsb (String.eqb (id e')) seen) eqn:Hseen.
    + intros [? ?]%IH. split; [by right|done].
    + assert (id e' ∉ seen) as Hn.
      { intros Hin%existsb_eqb_elem. congruence. }
      intros [->|[? Hnot]%IH]%elem_of_cons; [split; [left|done]|].
      split; [by right|]. intros ?. apply Hnot. by right.
Qed.

Lemma merge_by_id_NoDup seen events : NoDup (map id (merge_by_id seen events)).
Proof.
  revert seen. induction events as [|e events IH]; intros seen; simpl; [constructor|].
  destruct (existsb (String.eqb (id e)) seen); [apply IH|].
  simpl. constructor; [|apply IH].
  intros (e' & He' & [_ Hnot]%merge_by_id_sound)%list_elem_of_fmap.
  apply Hnot. rewrite <- He'. left.
Qed.

Lemma merge_by_id_complete seen events e :
  e ∈ events → id e ∉ seen → ∃ e', e' ∈ merge_by_id seen events ∧ id e' = id e.
Proof.
  revert seen. induction events as [|e0 events IH]; intros seen; simpl.
  - by intros ?%elem_of_nil.
  - intros He Hseen. destruct (existsb (String.eqb (id e0)) seen) eqn:Hs.
    + apply elem_of_cons in He as [->|He]; [|by apply IH].
      apply existsb_eqb_elem in Hs. done.
    + apply elem_of_cons in He as [->|He]; [exists e0; split; [left|done]|].
      destruct (decide (id e = id e0)) as [Heq|Hne].
      * exists e0. split; [left|done].
      * destruct (IH (id e0 :: seen) He) as (e' & ? & ?).
        { intros [?|?]%elem_of_cons; done. }
        exists e'. split; [by right|done].
Qed.

(** C2, as the code has it.  The feed returned by the notes query holds
    exactly the events delivered by the configured endpoints that
    answered, one per [id], in descending order of [created_at]; events
    with the same [created_at] keep the order in which they were
    delivered. *)
Theorem notes_feed_sorted_stable (env : Env) (w : World) :
  let merged := querySync_result env (relays env) notes_filter in
  let feed := js_sort by_created_at_desc merged in
  (notes_queryFn env w).1 = Done feed ∧
  feed ≡ₚ merged ∧
  NoDup (map id feed) ∧
  (∀ e, e ∈ feed →
     ∃ url l, url ∈ relays env ∧ url ∈ arrival env ∧
              relay_events env url notes_filter = Some l ∧ e ∈ l) ∧
  (∀ url l e, url ∈ relays env → url ∈ arrival env →
     relay_events env url notes_filter = Some l → e ∈ l →
     ∃ e', e' ∈ feed ∧ id e' = id e) ∧
  StronglySorted not_older feed ∧
  (∀ t, filter (λ e, created_at e = t) feed = filter (λ e, created_at e = t) merged).
Proof.
  intros merged feed.
  assert (feed ≡ₚ merged) as Hperm by apply js_sort_perm.
  split_and!.
  - done.
  - done.
  - rewrite Hperm. apply merge_by_id_NoDup.
  - intros e. rewrite Hperm. intros [He _]%merge_by_id_sound.
    apply list_elem_of_In, in_flat_map in He as (url & Hurl & He).
    apply list_elem_of_In, list_elem_of_filter in Hurl as [Hin Harr].
    destruct (relay_events env url notes_filter) as [l|] eqn:Hl; simpl in He; [|done].
    exists url, l. split_and!; try done. by apply list_elem_of_In.
  - intros url l e Hin Harr Hl He.
    destruct (merge_by_id_complete [] (flat_map (λ url, default [] (relay_events env url notes_filter))
                (filter (λ url, url ∈ relays env) (arrival env))) e) as (e' & He' & Hid).
    + apply list_elem_of_In, in_flat_map. exists url. split.
      * apply list_elem_of_In, list_elem_of_filter. done.
      * rewrite Hl. simpl. by apply list_elem_of_In.
    + apply not_elem_of_nil.
    + exists e'. split; [|done]. by rewrite Hperm.
  - apply js_sort_sorted.
  - intros t. apply js_sort_stable.
Qed.

(** The scenario of the specification gives the feed [300, 200, 100]. *)
Example scenario_feed :
  (notes_queryFn env_scenario empty_world).1 = Done [note_300; note_200; note_100].
Proof. reflexivity. Qed.

(** C2, as stated, fails.  Two endpoints each deliver one note of the same
    second; the feed follows the order in which they answered, so the two
    orders of arrival give two different feeds, and the one that starts
    with the larger [id] is not in the order of the specification. *)
Lemma feed_order_depends_on_arrival :
  relays env_one_first = relays env_two_first ∧
  arrival env_one_first ≡ₚ arrival env_two_first ∧
  (notes_queryFn env_one_first empty_world).1 = Done [note_a; note_b] ∧
  (notes_queryFn env_two_first empty_world).1 = Done [note_b; note_a] ∧
  spec_ordered [note_b; note_a] = false.
Proof.
  split_and!; try reflexivity. apply perm_swap.
Qed.

(** ** Hexadecimal keys and digests *)

Section HexFacts.
Context `{Runtime}.

Lemma fill_length {A} (f : nat → A) (l0 : list A) (js : list nat) :
  length (foldl (λ l j, <[j := f j]> l) l0 js) = length l0.
Proof.
  revert l0. induction js as [|j js IH]; intros l0; simpl; [done|].
  by rewrite IH, length_insert.
Qed.

Lemma fill_lookup {A} (f : nat → A) (l0 : list A) (m k : nat) :
  (k < m)%nat → (k < length l0)%nat →
  foldl (λ l j, <[j := f j]> l) l0 (seq 0 m) !! k = Some (f k).
Proof.
  induction m as [|m IH]; intros Hk Hlen; [lia|].
  rewrite seq_S, foldl_app. simpl.
  destruct (decide (k = m)) as [->|Hne].
  - apply list_lookup_insert_eq. by rewrite fill_length.
  - rewrite list_lookup_insert_ne by done. apply IH; [lia|done].
Qed.

Lemma hex_length_aux (hex : string) :
  length (hexToBytes hex) = (String.length hex / 2)%nat.
Proof.
  unfold hexToBytes. by rewrite fill_length, length_replicate.
Qed.

Lemma hex_lookup_aux (hex : string) (k : nat) :
  (k < String.length hex / 2)%nat →
  hexToBytes hex !! k = Some (ToUint8 (parseInt16 (String.substring (2 * k) 2 hex))).
Proof.
  intros Hk. unfold hexToBytes.
  apply (fill_lookup (λ j, ToUint8 (parseInt16 (String.substring (2 * j) 2 hex)))).
  - pose proof (Nat.Div0.div_le_mono (String.length hex) (String.length hex + 1) 2). lia.
  - by rewrite length_replicate.
Qed.

(** X1.  [hexToBytes] returns one byte for every two characters, and the
    last character of a string of odd length is dropped.  Byte [k] is
    what [parseInt] reads in the two characters at [2k], reduced to a
    byte; a pair that [parseInt] rejects gives the byte 0 and no error. *)
Theorem hexToBytes_shape (hex : string) :
  length (hexToBytes hex) = (String.length hex / 2)%nat ∧
  ∀ k, (k < String.length hex / 2)%nat →
       hexToBytes hex !! k = Some (ToUint8 (parseInt16 (String.substring (2 * k) 2 hex))) ∧
       (parseInt16 (String.substring (2 * k) 2 hex) = None →
        hexToBytes hex !! k = Some Byte.x00).
Proof.
  split; [apply hex_length_aux|]. intros k Hk.
  pose proof (hex_lookup_aux hex k Hk) as Hlook.
  split; [done|]. intros Hnan. by rewrite Hlook, Hnan.
Qed.

Lemma string_app_nil_r (s : string) : s +:+ "" = s.
Proof.
  induction s as [|c s IH]; [done|].
  change (String c s +:+ "") with (String c (s +:+ "")). by rewrite IH.
Qed.

Lemma concat_hex_cons (s : string) (l : list string) :
  String.concat "" (s :: l) = s +:+ String.concat "" l.
Proof.
  destruct l as [|s' l]; simpl; [|done]. by rewrite string_app_nil_r.
Qed.

Lemma hex_pair (b : Byte.byte) :
  ∃ c1 c2, padStart2 (toString16 b) = String c1 (String c2 "").
Proof. destruct b; by eexists _, _. Qed.

Lemma bytesToHex_substring (bytes : list Byte.byte) (k : nat) (b : Byte.byte) :
  bytes !! k = Some b →
  String.substring (2 * k) 2 (bytesToHex bytes) = padStart2 (toString16 b).
Proof.
  unfold bytesToHex. revert k. induction bytes as [|b0 bytes IH]; intros k Hk; [done|].
  change (map _ (b0 :: bytes)) with
    (padStart2 (toString16 b0) :: map (λ b, padStart2 (toString16 b)) bytes).
  rewrite concat_hex_cons. destruct (hex_pair b0) as (c1 & c2 & Hpair). rewrite Hpair.
  set (rest := String.concat "" (map (λ b, padStart2 (toString16 b)) bytes)) in *.
  change (String c1 (String c2 "") +:+ rest) with (String c1 (String c2 rest)).
  destruct k as [|k].
  - injection Hk as <-. rewrite Hpair. simpl. by destruct rest.
  - replace (2 * S k)%nat with (S (S (2 * k))) by lia.
    change (String.substring (S (S (2 * k))) 2 (String c1 (String c2 rest)))
      with (String.substring (2 * k) 2 rest).
    by apply IH.
Qed.

Lemma bytesToHex_double (bytes : list Byte.byte) :
  String.length (bytesToHex bytes) = (length bytes * 2)%nat.
Proof.
  unfold bytesToHex. induction bytes as [|b bytes IH]; [done|].
  change (map _ (b :: bytes)) with
    (padStart2 (toString16 b) :: map (λ b, padStart2 (toString16 b)) bytes).
  rewrite concat_hex_cons, string_length_append, IH.
  destruct (hex_pair b) as (c1 & c2 & ->). simpl. lia.
Qed.

Lemma bytesToHex_half (bytes : list Byte.byte) :
  (String.length (bytesToHex bytes) / 2)%nat = length bytes.
Proof. rewrite bytesToHex_double. apply Nat.div_mul. lia. Qed.

Lemma hex_round_trip_aux (bytes : list Byte.byte) :
  (∀ b, parseInt16 (padStart2 (toString16 b)) = Some (Z.of_N (Byte.to_N b))) →
  hexToBytes (bytesToHex bytes) = bytes.
Proof.
  intros Hparse. apply list_eq. intros k.
  destruct (bytes !! k) as [b|] eqn:Hb.
  - rewrite hex_lookup_aux.
    + rewrite (bytesToHex_substring _ _ _ Hb), Hparse. f_equal. by destruct b.
    + rewrite bytesToHex_half. by eapply lookup_lt_Some.
  - apply lookup_ge_None. rewrite hex_length_aux, bytesToHex_half.
    by apply lookup_ge_None.
Qed.

(** X2.  Round trip: on a platform whose [parseInt] reads the two digits
    that [bytesToHex] writes for a byte as the value of that byte,
    [hexToBytes (bytesToHex bytes)] is [bytes], and [bytesToHex] writes
    two characters per byte. *)
Theorem hexToBytes_bytesToHex (bytes : list Byte.byte) :
  (∀ b, parseInt16 (padStart2 (toString16 b)) = Some (Z.of_N (Byte.to_N b))) →
  hexToBytes (bytesToHex bytes) = bytes ∧
  String.length (bytesToHex bytes) = (2 * length bytes)%nat.
Proof.
  intros Hparse. split; [by apply hex_round_trip_aux|].
  rewrite bytesToHex_double. lia.
Qed.

End HexFacts.

(** The sample [parseInt] reads back what [bytesToHex] writes. *)
Lemma sample_parseInt16_digits (b : Byte.byte) :
  sample_parseInt16 (padStart2 (toString16 b)) = Some (Z.of_N (Byte.to_N b)).
Proof. destruct b; reflexivity. Defined.


(** ** The publish mutation *)

Section ComponentFacts.
Context `{Runtime}.
Implicit Types (env : Env) (w : World).

(** The writes are logged and nothing else changes. *)
Lemma publish_any_world env urls event w :
  (publish_any env urls event w).2 =
  mkWorld (attachments w) (isUploading w) (postContent w) (notes_cache w)
          (metadata_cache w) (alerts w) (sign_requests w) (relay_queries w)
          (relay_writes w ++ map (λ url, (url, event)) urls) (http_requests w) (render_error w).
Proof.
  unfold publish_any, bind, log_relay_writes, modify.
  by destruct (PromiseAny.status _) as [[?|?]|].
Qed.

(** With no endpoint the promise of [Promise.any] is rejected from the
    start. *)
Lemma publish_any_no_relays env event w :
  publish_any env [] event w = (Failed (AggregateError []), w).
Proof.
  unfold publish_any, bind, log_relay_writes, modify.
  change (pool_publish env [] event) with (@nil (Settled string)).
  rewrite any_run_nil. unfold throw. f_equal. destruct w; simpl. by rewrite app_nil_r.
Qed.

(** The mutation, step by step. *)
Lemma mutationFn_unfold env content_ w :
  mutationFn env content_ w =
  if negb (truthy (userPk env)) then (Failed (Error "Not logged in"), w)
  else
    let t := note_template env (attachments w) content_ in
    if truthy (userSk env) then
      match finalizeEvent t (hexToBytes (default "" (userSk env))) with
      | Throw e => (Failed e, w)
      | Return event => bind (publish_any env (relays env) event) (λ _, ret event) w
      end
    else
      match nostr env with
      | None => (Failed (Error "No signing method available"), w)
      | Some agent =>
          match agent t with
          | Failed e => (Failed e, (log_sign_request t w).2)
          | Suspended => (Suspended, (log_sign_request t w).2)
          | Done event =>
              bind (publish_any env (relays env) event) (λ _, ret event)
                   (log_sign_request t w).2
          end
      end.
Proof.
  unfold mutationFn. destruct (truthy (userPk env)); simpl; [|done].
  unfold bind at 1. unfold gets. simpl. fold (note_template env (attachments w) content_).
  destruct (truthy (userSk env)).
  - unfold bind at 1. by destruct (finalizeEvent _ _).
  - destruct (nostr env) as [agent|]; [|done].
    unfold bind at 1. unfold signEvent, bind at 1, log_sign_request, modify. simpl.
    by destruct (agent _).
Qed.

(** The upload, step by step. *)
Lemma uploadToBlossom_unfold env file w :
  uploadToBlossom env file w =
  if negb (truthy (userPk env)) then (Done tt, w)
  else
    let w0 := (setIsUploading true w).2 in
    match digest_sha256 file with
    | Throw e => upload_failed e w0
    | Return digest =>
        let t := upload_template env file digest in
        match signing env t with
        | None => upload_failed (Error "Login to upload media") w0
        | Some signed =>
            let w1 := if truthy (userSk env) then w0 else (log_sign_request t w0).2 in
            match signed with
            | Failed e => upload_failed e w1
            | Suspended => (Suspended, w1)
            | Done signedEvent =>
                match btoa (JSON_stringify signedEvent) with
                | Throw e => upload_failed e w1
                | Return authHeader =>
                    let req := upload_request file authHeader in
                    let w2 := (log_http_request req w1).2 in
                    match fetch env req with
                    | Throw e => upload_failed e w2
                    | Return response =>
                        if negb (ok response) then upload_failed (Error "Upload failed") w2
                        else
                          match json response with
                          | Throw e => upload_failed e w2
                          | Return body => upload_recorded body w2
                          end
                    end
                end
            end
        end
    end.
Proof.
  unfold uploadToBlossom, signing. destruct (truthy (userPk env)); simpl; [|done].
  unfold try_catch_finally, bind, lift, ret, throw, signEvent, do_fetch, bind,
    upload_failed, upload_recorded. simpl.
  fold (upload_request file).
  destruct (digest_sha256 file) as [digest|e]; simpl; [|done].
  fold (upload_template env file digest).
  destruct (truthy (userSk env)); simpl.
  - destruct (finalizeEvent _ _) as [signedEvent|e]; simpl; [|done].
    destruct (btoa _) as [authHeader|e]; simpl; [|done].
    destruct (fetch env _) as [response|e]; simpl; [|done].
    destruct (ok response); simpl; [|done].
    by destruct (json response) as [body|e].
  - destruct (nostr env) as [agent|]; simpl; [|done].
    destruct (agent _) as [signedEvent|e|]; simpl; [|done|done].
    destruct (btoa _) as [authHeader|e]; simpl; [|done].
    destruct (fetch env _) as [response|e]; simpl; [|done].
    destruct (ok response); simpl; [|done].
    by destruct (json response) as [body|e].
Qed.

(** Once the event is signed, the mutation ends as the publish step
    does. *)
Lemma mutationFn_after_signing env content_ w event :
  truthy (userPk env) = true →
  signing env (note_template env (attachments w) content_) = Some (Done event) →
  ∃ w', (mutationFn env content_ w).1 =
        match (publish_any env (relays env) event w').1 with
        | Done _ => Done event
        | Failed e => Failed e
        | Suspended => Suspended
        end.
Proof.
  intros Hpk Hsigned. rewrite mutationFn_unfold, Hpk. simpl.
  unfold signing in Hsigned. destruct (truthy (userSk env)).
  - destruct (finalizeEvent _ _) as [event'|e]; [|done].
    injection Hsigned as ->. exists w. unfold bind.
    by destruct (publish_any env (relays env) event w) as [[v|e|] w'].
  - destruct (nostr env) as [agent|]; [|done]. injection Hsigned as ->.
    exists (log_sign_request (note_template env (attachments w) content_) w).2.
    simpl. unfold bind.
    by destruct (publish_any _ _ _ _) as [[v|e|] w'].
Qed.

Lemma log_no_request {A} (l : list A) (x : A) : l ++ [x] ≠ l.
Proof. intros Heq%(f_equal length). rewrite length_app in Heq. simpl in Heq. lia. Qed.

(** The mutation touches neither the cached feed nor the relay queries. *)
Lemma mutationFn_keeps_notes env content_ w :
  notes_cache (mutationFn env content_ w).2 = notes_cache w ∧
  relay_queries (mutationFn env content_ w).2 = relay_queries w.
Proof.
  rewrite mutationFn_unfold. destruct (truthy (userPk env)); simpl; [|done].
  destruct (truthy (userSk env)).
  - destruct (finalizeEvent _ _) as [event|e]; [|done].
    unfold bind. pose proof (publish_any_world env (relays env) event w) as Hw.
    destruct (publish_any env (relays env) event w) as [[v|e|] w']; simpl in *; by subst w'.
  - destruct (nostr env) as [agent|]; [|done].
    destruct (agent _) as [event|e|]; [|done|done].
    unfold bind.
    pose proof (publish_any_world env (relays env) event
                  (log_sign_request (note_template env (attachments w) content_) w).2) as Hw.
    destruct (publish_any env (relays env) event _) as [[v|e|] w']; simpl in *; by subst w'.
Qed.

(** C3.  With neither a local key nor an agent, an attempt to publish
    fails at once with the error "No signing method available" and
    nothing leaves the component.  The Post button is the one caller of
    the mutation and is enabled only when a public key is set: for a
    logged-in user the mutation throws that error with the state
    untouched, whatever the text; a click on the enabled button shows the
    message once and writes to no relay, asks no agent and sends no
    request; a click on the disabled button does nothing. *)
Theorem publish_without_signer (env : Env) :
  truthy (userSk env) = false →
  nostr env = None →
  (∀ content_ w,
     truthy (userPk env) = true →
     mutationFn env content_ w = (Failed (Error "No signing method available"), w)) ∧
  (∀ isPending w,
     post_disabled env isPending w = false →
     let w' := (click_post env isPending w).2 in
     truthy (userPk env) = true ∧
     mutationFn env (postContent w) w = (Failed (Error "No signing method available"), w) ∧
     alerts w' = alerts w ++ ["No signing method available"] ∧
     relay_writes w' = relay_writes w ∧
     sign_requests w' = sign_requests w ∧
     http_requests w' = http_requests w ∧
     relay_queries w' = relay_queries w) ∧
  (∀ isPending w,
     post_disabled env isPending w = true →
     click_post env isPending w = (Done tt, w)).
Proof.
  intros Hsk Hagent.
  assert (∀ content_ w, truthy (userPk env) = true →
            mutationFn env content_ w = (Failed (Error "No signing method available"), w))
    as Hfails.
  { intros content_ w Hpk. by rewrite mutationFn_unfold, Hsk, Hagent, Hpk. }
  split_and!; [done| |].
  - intros isPending w Hen.
    assert (truthy (userPk env) = true) as Hpk.
    { unfold post_disabled in Hen. by destruct (truthy (userPk env)). }
    unfold click_post, mutate. rewrite Hen, (Hfails _ _ Hpk). by simpl.
  - intros isPending w Hdis. unfold click_post. by rewrite Hdis.
Qed.

(** C5, as the code has it.  With no endpoint configured the queries
    return nothing, and the publish mutation does not succeed: it never
    returns an event and writes to no relay; it fails, unless it is still
    waiting for the agent to sign; and when the event has been signed the
    failure is the [AggregateError] of [Promise.any] with no reasons. *)
Theorem empty_relay_set (env : Env) :
  relays env = [] →
  (∀ w, (notes_queryFn env w).1 = Done []) ∧
  (∀ authors_ w, (metadata_queryFn env authors_ w).1 = Done ∅) ∧
  (∀ content_ w,
     relay_writes (mutationFn env content_ w).2 = relay_writes w ∧
     (∀ event, (mutationFn env content_ w).1 ≠ Done event) ∧
     ((∃ e, (mutationFn env content_ w).1 = Failed e) ∨
      ((mutationFn env content_ w).1 = Suspended ∧
       signing env (note_template env (attachments w) content_) = Some Suspended))) ∧
  (∀ content_ w event,
     truthy (userPk env) = true →
     signing env (note_template env (attachments w) content_) = Some (Done event) →
     (mutationFn env content_ w).1 = Failed (AggregateError [])).
Proof.
  intros Hrelays.
  assert (∀ f, querySync_result env [] f = []) as Hq.
  { intros f. unfold querySync_result.
    assert (filter (λ url, url ∈ []) (arrival env) = []) as ->; [|done].
    induction (arrival env) as [|url l IH]; [done|].
    rewrite filter_cons. destruct (decide (url ∈ [])) as [Hin|_]; [|done].
    by apply elem_of_nil in Hin. }
  split_and!.
  - intros w. unfold notes_queryFn, querySync, bind, log_relay_query, modify, ret. simpl.
    by rewrite Hrelays, Hq.
  - intros authors_ w. unfold metadata_queryFn.
    destruct (length authors_ =? 0)%nat; [done|].
    unfold querySync, bind, log_relay_query, modify, ret. simpl.
    by rewrite Hrelays, Hq.
  - intros content_ w. rewrite mutationFn_unfold, Hrelays. unfold signing.
    destruct (truthy (userPk env)); simpl; [|by eauto].
    destruct (truthy (userSk env)).
    + destruct (finalizeEvent _ _) as [event|e]; [|by eauto].
      unfold bind. rewrite publish_any_no_relays. by eauto.
    + destruct (nostr env) as [agent|]; [|by eauto].
      destruct (agent _) as [event|e|]; [|by eauto|by eauto].
      unfold bind. rewrite publish_any_no_relays. by eauto.
  - intros content_ w event Hpk Hsigned. rewrite mutationFn_unfold, Hrelays, Hpk. simpl.
    unfold signing in Hsigned. destruct (truthy (userSk env)).
    + destruct (finalizeEvent _ _) as [event'|e]; [|done].
      injection Hsigned as ->. unfold bind. by rewrite publish_any_no_relays.
    + destruct (nostr env) as [agent|]; [|done].
      injection Hsigned as ->. unfold bind. by rewrite publish_any_no_relays.
Qed.

(** C8.  When the mutation has returned the published event, [mutate]
    puts it at the head of the cached feed of the current relay list and
    leaves the rest of that list, and the lists cached under other keys,
    as they were; no query is sent to the relays for this. *)
Theorem published_event_heads_feed (env : Env) (content_ : string) (w : World)
    (newEvent : NostrEvent) :
  (mutationFn env content_ w).1 = Done newEvent →
  (mutate env content_ w).1 = Done tt ∧
  notes env (mutate env content_ w).2 = newEvent :: notes env w ∧
  (∀ key, key ≠ relays env →
     notes_cache (mutate env content_ w).2 !! key = notes_cache w !! key) ∧
  relay_queries (mutate env content_ w).2 = relay_queries w.
Proof.
  intros Hdone. destruct (mutationFn_keeps_notes env content_ w) as [Hnotes Hqueries].
  unfold mutate, notes.
  destruct (mutationFn env content_ w) as [[event|e|] w'] eqn:Hm; simplify_eq/=.
  rewrite Hnotes. split_and!; try done.
  - by rewrite lookup_insert_eq.
  - intros key Hkey. by rewrite lookup_insert_ne.
Qed.

(** The agent is asked at most once, and only when there is no local
    key. *)
Lemma mutationFn_sign_requests env content_ w :
  sign_requests (mutationFn env content_ w).2 =
  if truthy (userPk env) && negb (truthy (userSk env)) && bool_decide (is_Some (nostr env))
  then sign_requests w ++ [note_template env (attachments w) content_]
  else sign_requests w.
Proof.
  rewrite mutationFn_unfold. destruct (truthy (userPk env)); simpl; [|done].
  destruct (truthy (userSk env)); simpl.
  - destruct (finalizeEvent _ _) as [event|e]; [|done].
    unfold bind. pose proof (publish_any_world env (relays env) event w) as Hw.
    destruct (publish_any env (relays env) event w) as [[v|e|] w']; simpl in *; by subst w'.
  - destruct (nostr env) as [agent|]; simpl; [|done].
    destruct (agent _) as [event|e|]; [|done|done].
    unfold bind.
    pose proof (publish_any_world env (relays env) event
                  (log_sign_request (note_template env (attachments w) content_) w).2) as Hw.
    destruct (publish_any env (relays env) event _) as [[v|e|] w']; simpl in *; by subst w'.
Qed.

(** All the ways [uploadToBlossom] can go. *)
Ltac upload_tail env :=
  destruct (btoa _) as [?authHeader|?e] eqn:?; simpl;
  [ destruct (fetch env _) as [?response|?e] eqn:?; simpl;
    [ destruct (ok _) eqn:?; simpl;
      [ destruct (json _) as [?body|?e] eqn:?; simpl;
        [ destruct (get _ "url") as [?url|?e] eqn:?; simpl | ]
      | ]
    | ]
  | ].

Ltac upload_cases env file :=
  rewrite uploadToBlossom_unfold;
  unfold signing, upload_failed, upload_recorded, setAttachments_at_render, modify;
  destruct (truthy (userPk env)) eqn:?; simpl;
  [ destruct (digest_sha256 file) as [?digest|?e] eqn:?; simpl;
    [ destruct (truthy (userSk env)) eqn:?; simpl;
      [ destruct (finalizeEvent _ _) as [?signed|?e] eqn:?; simpl; [upload_tail env|]
      | destruct (nostr env) as [?agent|] eqn:?; simpl;
        [ destruct (_ (upload_template _ _ _)) as [?signed|?e|] eqn:?; simpl;
          [upload_tail env| |]
        | ] ]
    | ]
  | ].

Lemma upload_sign_requests env file w :
  sign_requests (uploadToBlossom env file w).2 ≠ sign_requests w →
  truthy (userSk env) = false.
Proof. upload_cases env file; done. Qed.

Lemma upload_sign_requests_local env file w :
  truthy (userSk env) = true →
  sign_requests (uploadToBlossom env file w).2 = sign_requests w.
Proof. intros Hsk. upload_cases env file; congruence. Qed.

(** What [finalizeEvent] returns is bound to the key: it carries the
    public key of [sk] and the signature made with [sk] over its hash. *)
Lemma finalizeEvent_key (t : EventTemplate) (sk : list Byte.byte) (event : NostrEvent) :
  finalizeEvent t sk = Return event →
  getPublicKey sk = Return (pubkey event) ∧
  id event = getEventHash (pubkey event) t ∧
  sig event = schnorr_sign (id event) sk.
Proof.
  unfold finalizeEvent. destruct (getPublicKey sk) as [pk|e]; [|done]. by intros [= <-].
Qed.

(** C10.  With a local key (a non-empty [userSk]) the event is signed by
    [finalizeEvent] with that key, in the publish mutation and in the
    upload alike, and the agent is not asked, whether or not there is
    one: the event carries the public key of that key and its signature.
    The key handed to [finalizeEvent] is the stored text read as
    hexadecimal: one byte per two characters, each what [parseInt] reads
    there, and for a key stored by [bytesToHex] the very bytes that were
    stored.  A call that does ask the agent runs without a local key. *)
Theorem local_key_takes_precedence (env : Env) :
  (truthy (userSk env) = true →
   let hex := default "" (userSk env) in
   let sk := hexToBytes hex in
   (length sk = (String.length hex / 2)%nat ∧
    (∀ k, (k < String.length hex / 2)%nat →
          sk !! k = Some (ToUint8 (parseInt16 (String.substring (2 * k) 2 hex)))) ∧
    (∀ key, (∀ b, parseInt16 (padStart2 (toString16 b)) = Some (Z.of_N (Byte.to_N b))) →
            userSk env = Some (bytesToHex key) → sk = key)) ∧
   (∀ content_ w,
      sign_requests (mutationFn env content_ w).2 = sign_requests w ∧
      ∀ event, (mutationFn env content_ w).1 = Done event →
               finalizeEvent (note_template env (attachments w) content_) sk = Return event ∧
               getPublicKey sk = Return (pubkey event) ∧
               sig event = schnorr_sign (id event) sk) ∧
   (∀ file w,
      sign_requests (uploadToBlossom env file w).2 = sign_requests w ∧
      ∀ req, http_requests (uploadToBlossom env file w).2 = http_requests w ++ [req] →
             ∃ digest signed authHeader,
               digest_sha256 file = Return digest ∧
               finalizeEvent (upload_template env file digest) sk = Return signed ∧
               getPublicKey sk = Return (pubkey signed) ∧
               sig signed = schnorr_sign (id signed) sk ∧
               btoa (JSON_stringify signed) = Return authHeader ∧
               req = upload_request file authHeader)) ∧
  (∀ content_ w,
     sign_requests (mutationFn env content_ w).2 ≠ sign_requests w →
     truthy (userSk env) = false) ∧
  (∀ file w,
     sign_requests (uploadToBlossom env file w).2 ≠ sign_requests w →
     truthy (userSk env) = false).
Proof.
  split_and!.
  - intros Hsk hex sk. split_and!.
    + apply hex_length_aux.
    + intros k Hk. by apply hex_lookup_aux.
    + intros key Hparse Hstored. unfold sk, hex. rewrite Hstored. simpl.
      by apply hex_round_trip_aux.
    + intros content_ w. split.
      * rewrite mutationFn_sign_requests, Hsk. simpl. by rewrite andb_false_r.
      * intros event. rewrite mutationFn_unfold, Hsk.
        destruct (truthy (userPk env)); simpl; [|done].
        fold hex. fold sk. destruct (finalizeEvent _ sk) as [event'|e] eqn:Hfin; [|done].
        destruct (finalizeEvent_key _ _ _ Hfin) as (Hpub & _ & Hsig).
        unfold bind.
        destruct (publish_any env (relays env) event' w) as [[v|e|] w']; simpl;
          [|done..]. by intros [= <-].
    + intros file w. split.
      * by apply upload_sign_requests_local.
      * intros req. fold hex. fold sk. upload_cases env file;
          try (by intros ?%symmetry%log_no_request); try congruence.
        all: intros ->%app_inv_head%(inj (λ x, [x])) || intros [= <-]%app_inv_head.
        all: match goal with
             | Hfin : finalizeEvent _ _ = Return _ |- _ =>
                 destruct (finalizeEvent_key _ _ _ Hfin) as (Hpub & _ & Hsig)
             end.
        all: eexists _, _, _; split_and!; try done; unfold sk, hex; by rewrite Hsk in *.
  - intros content_ w. rewrite mutationFn_sign_requests.
    destruct (truthy (userSk env)); [|done].
    simpl. rewrite andb_false_r. done.
  - intros file w. apply upload_sign_requests.
Qed.

(** [finalizeEvent] signs the template it is given. *)
Lemma finalizeEvent_fields (t : EventTemplate) (sk : list Byte.byte) (event : NostrEvent) :
  finalizeEvent t sk = Return event →
  kind event = t_kind t ∧ created_at event = t_created_at t ∧
  tags event = t_tags t ∧ content event = t_content t.
Proof.
  unfold finalizeEvent. destruct (getPublicKey sk); [|done]. by intros [= <-].
Qed.

(** ** The media upload *)


(** A successful response whose body is [null]: reading [data.url] throws
    inside the updater, when React renders, where no [catch] of the
    upload sees it.  The upload itself returns; no message is shown and
    nothing is recorded. *)
Lemma upload_null_body env file w digest signed authHeader response :
  truthy (userPk env) = true →
  digest_sha256 file = Return digest →
  signing env (upload_template env file digest) = Some (Done signed) →
  btoa (JSON_stringify signed) = Return authHeader →
  fetch env (upload_request file authHeader) = Return response →
  ok response = true →
  json response = Return JNull →
  (uploadToBlossom env file w).1 = Done tt ∧
  is_Some (render_error (uploadToBlossom env file w).2) ∧
  attachments (uploadToBlossom env file w).2 = attachments w ∧
  alerts (uploadToBlossom env file w).2 = alerts w.
Proof.
  intros Hpk Hdigest Hsigned Hbtoa Hfetch Hok Hjson.
  rewrite uploadToBlossom_unfold, Hpk, Hdigest. simpl. rewrite Hsigned, Hbtoa. simpl.
  rewrite Hfetch, Hok. simpl. rewrite Hjson.
  unfold upload_recorded. by destruct (truthy (userSk env)); simpl; eauto.
Qed.


(** C6, where the code departs from it.  When every step succeeds and the
    parsed body of the successful response has no [url] property,
    [undefined] is added to the attachments and no failure is shown. *)
Theorem upload_without_url_recorded (env : Env) (file : File) (w : World)
    (digest : list Byte.byte) (signed : NostrEvent) (authHeader : string)
    (response : HttpResponse) (body : Json) :
  truthy (userPk env) = true →
  digest_sha256 file = Return digest →
  signing env (upload_template env file digest) = Some (Done signed) →
  btoa (JSON_stringify signed) = Return authHeader →
  fetch env (upload_request file authHeader) = Return response →
  ok response = true →
  json response = Return body →
  get body "url" = Return undefined →
  (uploadToBlossom env file w).1 = Done tt ∧
  attachments (uploadToBlossom env file w).2 = attachments w ++ [undefined] ∧
  alerts (uploadToBlossom env file w).2 = alerts w.
Proof.
  intros Hpk Hdigest Hsigned Hbtoa Hfetch Hok Hjson Hurl.
  rewrite uploadToBlossom_unfold, Hpk, Hdigest. simpl. rewrite Hsigned, Hbtoa. simpl.
  rewrite Hfetch, Hok. simpl. rewrite Hjson.
  unfold upload_recorded, setAttachments_at_render, modify. simpl. rewrite Hurl.
  by destruct (truthy (userSk env)).
Qed.

End ComponentFacts.

(** ** Profile metadata *)

Section MetadataFacts.
Context `{Runtime}.
Implicit Types (env : Env) (w : World) (m : gmap string Json).

Lemma record_profile_unparsable m e :
  JSON_parse (content e) = None → record_profile m e = m.
Proof. unfold record_profile. by intros ->. Qed.

Lemma record_profile_other m e pk :
  pubkey e ≠ pk → record_profile m e !! pk = m !! pk.
Proof.
  intros Hne. unfold record_profile.
  destruct (JSON_parse (content e)); [|done]. by rewrite lookup_insert_ne.
Qed.

Lemma profiles_absent m (events : list NostrEvent) pk :
  m !! pk = None →
  (∀ e, e ∈ events → pubkey e = pk → JSON_parse (content e) = None) →
  foldl record_profile m events !! pk = None.
Proof.
  revert m. induction events as [|e events IH]; intros m Hm Hbad; simpl; [done|].
  apply IH.
  - destruct (decide (pubkey e = pk)) as [Heq|Hne].
    + rewrite record_profile_unparsable; [done|]. apply Hbad; [left|done].
    + by rewrite record_profile_other.
  - intros e' He'. apply Hbad. by right.
Qed.

Lemma profiles_of_parsable m (events : list NostrEvent) :
  foldl record_profile m events =
  foldl record_profile m (filter (λ e, is_Some (JSON_parse (content e))) events).
Proof.
  revert m. induction events as [|e events IH]; intros m; simpl; [done|].
  rewrite filter_cons. destruct (decide (is_Some (JSON_parse (content e)))) as [Hs|Hn].
  - simpl. apply IH.
  - rewrite record_profile_unparsable; [apply IH|].
    destruct (JSON_parse (content e)); [|done]. exfalso. apply Hn. eauto.
Qed.

(** C9, as the code has it.  The metadata query never throws.  A profile
    event whose content does not parse is skipped: the result is the map
    built from the parsable events alone, each author mapped to the
    parsed content of the last of them, so an author has no entry exactly
    when none of the events delivered for that key parses. *)
Theorem unparsable_profiles_skipped (env : Env) (authors_ : list string) (w : World) :
  let delivered := querySync_result env (relays env) (metadata_filter authors_) in
  ∃ m,
    (metadata_queryFn env authors_ w).1 = Done m ∧
    m = (if (length authors_ =? 0)%nat then ∅
         else foldl record_profile ∅
                (filter (λ e, is_Some (JSON_parse (content e))) delivered)) ∧
    (∀ pk,
       (∀ e, e ∈ delivered → pubkey e = pk → JSON_parse (content e) = None) →
       m !! pk = None) ∧
    (∀ pk e parsed,
       authors_ ≠ [] → e ∈ delivered → pubkey e = pk →
       JSON_parse (content e) = Some parsed → is_Some (m !! pk)).
Proof.
  intros delivered. unfold metadata_queryFn.
  destruct authors_ as [|a authors_]; simpl.
  - exists ∅. split_and!; try done.
  - fold (metadata_filter (a :: authors_)). fold delivered.
    exists (foldl record_profile ∅ delivered). split_and!.
    + done.
    + apply profiles_of_parsable.
    + intros pk Hbad. by apply profiles_absent.
    + intros pk e parsed _ He Hpk Hparsed. clear -He Hpk Hparsed.
      generalize (∅ : gmap string Json).
      induction delivered as [|e' events IH]; intros m; [by apply elem_of_nil in He|].
      simpl. apply elem_of_cons in He as [<-|He]; [|by apply IH].
      assert (is_Some (record_profile m e !! pk)) as Hnow.
      { unfold record_profile. rewrite Hparsed, <- Hpk, lookup_insert_eq. eauto. }
      revert Hnow. generalize (record_profile m e). clear.
      induction events as [|e' events IH]; intros m Hm; simpl; [done|].
      apply IH. unfold record_profile. destruct (JSON_parse (content e')); [|done].
      destruct (decide (pubkey e' = pk)) as [->|Hne].
      * rewrite lookup_insert_eq. eauto.
      * by rewrite lookup_insert_ne.
Qed.

(** The lookup, case by case. *)
Lemma metadata_useQuery_unfold env authors_ w :
  metadata_useQuery env authors_ w =
  let key := (authors_, relays env) in
  let refetch :=
    bind (metadata_queryFn env authors_)
         (λ fetched,
            bind (setMetadata (λ c, <[key := {| data := fetched; dataUpdatedAt := now env |}]> c))
                 (λ _, ret fetched)) w in
  match metadata_cache w !! key with
  | Some entry =>
      if (0 <? length authors_)%nat && (dataUpdatedAt entry + staleTime <=? now env)
      then refetch else (Done (data entry), w)
  | None => if (0 <? length authors_)%nat then refetch else (Done ∅, w)
  end.
Proof.
  unfold metadata_useQuery. unfold bind at 1. unfold gets. simpl.
  destruct (metadata_cache w !! (authors_, relays env)) as [entry|].
  - by destruct ((0 <? length authors_)%nat && (dataUpdatedAt entry + staleTime <=? now env)).
  - rewrite andb_true_r. by destruct (0 <? length authors_)%nat.
Qed.

(** C4, as the code has it.  The cache is kept per query key, the pair of
    the author list and the relay list.  A lookup whose key has an entry
    fetched less than [staleTime] ago returns that entry and sends
    nothing.  A lookup for a non-empty author list whose key has no entry,
    or one fetched [staleTime] or more ago, sends one query that names
    every author of the list, and caches its result under the key with the
    current time.  A lookup for the empty list sends nothing. *)
Theorem metadata_cache_per_key (env : Env) (authors_ : list string) (w : World) :
  let key := (authors_, relays env) in
  (∀ entry,
     metadata_cache w !! key = Some entry →
     now env < dataUpdatedAt entry + staleTime →
     metadata_useQuery env authors_ w = (Done (data entry), w)) ∧
  (authors_ ≠ [] →
   (metadata_cache w !! key = None ∨
    ∃ entry, metadata_cache w !! key = Some entry ∧ dataUpdatedAt entry + staleTime ≤ now env) →
   relay_queries (metadata_useQuery env authors_ w).2 =
     relay_queries w ++ [(relays env, metadata_filter authors_)] ∧
   ∃ fetched,
     (metadata_useQuery env authors_ w).1 = Done fetched ∧
     metadata_cache (metadata_useQuery env authors_ w).2 !! key =
       Some {| data := fetched; dataUpdatedAt := now env |}) ∧
  (authors_ = [] → relay_queries (metadata_useQuery env authors_ w).2 = relay_queries w).
Proof.
  intros key. rewrite metadata_useQuery_unfold. fold key. simpl. split_and!.
  - intros entry -> Hfresh.
    assert ((dataUpdatedAt entry + staleTime <=? now env) = false) as -> by lia.
    by rewrite andb_false_r.
  - intros Hne Hstale.
    destruct authors_ as [|a authors_]; [done|].
    assert (metadata_queryFn env (a :: authors_) w =
            (Done (foldl record_profile ∅
                     (querySync_result env (relays env) (metadata_filter (a :: authors_)))),
             (log_relay_query (relays env) (metadata_filter (a :: authors_)) w).2)) as Hq by done.
    unfold bind at 1 3 5. rewrite Hq. simpl.
    assert (∀ entry, dataUpdatedAt entry + staleTime ≤ now env →
                     (dataUpdatedAt entry + staleTime <=? now env) = true) as Hleb
      by (intros; lia).
    destruct Hstale as [->|(entry & -> & Hold)]; [|rewrite (Hleb _ Hold)]; simpl.
    + split; [done|]. eexists. split; [done|]. by rewrite lookup_insert_eq.
    + split; [done|]. eexists. split; [done|]. by rewrite lookup_insert_eq.
  - intros ->. simpl. by destruct (metadata_cache w !! key).
Qed.

End MetadataFacts.

(** ** The properties at work on the sample data *)

(** C1 on three endpoints: the first write has failed, the second is
    acknowledged, the third has not settled; the publish step has already
    completed. *)
Lemma publish_first_ack_witness :
  (publish_any env_publish (relays env_publish) note_a empty_world).1 = Done "".
Proof.
  apply (proj1 (proj2 (publish_first_ack_or_aggregate env_publish note_a empty_world))
           [0%nat] 1%nat [] "").
  - reflexivity.
  - intros j v' Hj. apply list_elem_of_singleton in Hj. subst j. discriminate.
  - reflexivity.
Defined.

(** The feed of the scenario holds the note that two endpoints deliver. *)
Lemma notes_feed_witness :
  ∃ e, e ∈ js_sort by_created_at_desc
               (querySync_result env_scenario (relays env_scenario) notes_filter) ∧
       id e = id note_300.
Proof.
  destruct (notes_feed_sorted_stable env_scenario empty_world) as (_ & _ & _ & _ & Hin & _).
  apply (Hin "wss://relay.two" [note_200; note_300] note_300).
  - apply list_elem_of_In. simpl. auto.
  - apply list_elem_of_In. simpl. auto.
  - reflexivity.
  - apply list_elem_of_In. simpl. auto.
Defined.

(** C3 on a session with a public key and no signer: the Post button is
    enabled, and the click shows the error and writes nothing. *)
Lemma publish_without_signer_witness :
  @post_disabled sample_runtime env_no_signer false draft_world = false ∧
  @mutationFn sample_runtime env_no_signer "hello" draft_world =
    (Failed (Error "No signing method available"), draft_world) ∧
  alerts (@click_post sample_runtime env_no_signer false draft_world).2 =
    ["No signing method available"] ∧
  relay_writes (@click_post sample_runtime env_no_signer false draft_world).2 = [].
Proof.
  destruct (proj1 (proj2 (@publish_without_signer sample_runtime env_no_signer
                            eq_refl eq_refl))
              false draft_world eq_refl) as (_ & Hm & Ha & Hw & _).
  split_and!; [reflexivity|exact Hm|exact Ha|exact Hw].
Defined.

(** C5, as stated, fails.  With no endpoint configured and the event
    signed by the agent, the mutation is rejected by [Promise.any]. *)
Lemma publish_no_relays_fails :
  relays env_no_relays = [] ∧
  (@mutationFn sample_runtime env_no_relays "hello" empty_world).1
    = Failed (AggregateError []).
Proof. split; reflexivity. Qed.

Lemma empty_relay_set_witness :
  (notes_queryFn env_no_relays empty_world).1 = Done [] ∧
  relay_writes (@mutationFn sample_runtime env_no_relays "hello" empty_world).2 = [] ∧
  (@mutationFn sample_runtime env_no_relays "hello" empty_world).1
    = Failed (AggregateError []).
Proof.
  destruct (@empty_relay_set sample_runtime env_no_relays eq_refl)
    as (Hnotes & _ & Hpub & Hsigned).
  split_and!.
  - apply Hnotes.
  - apply (Hpub "hello" empty_world).
  - apply (Hsigned "hello" empty_world
             (@sample_event env_no_relays "hello")); reflexivity.
Defined.

(** C8 on the sample session: the signed note is first in the feed. *)
Lemma published_event_heads_feed_witness :
  ∃ newEvent,
    (@mutationFn sample_runtime env_publish "hello" empty_world).1 = Done newEvent ∧
    notes env_publish (@mutate sample_runtime env_publish "hello" empty_world).2 = [newEvent].
Proof.
  eexists. split; [reflexivity|].
  apply (@published_event_heads_feed sample_runtime env_publish "hello" empty_world).
  reflexivity.
Defined.

(** C10 on a session with a key of 32 bytes and an agent: the bytes that
    sign are those of the stored key, the note carries the public key of
    that key, and the agent is not asked. *)
Lemma local_key_witness :
  truthy (userSk env_both) = true ∧
  is_Some (nostr env_both) ∧
  @hexToBytes sample_runtime (default "" (userSk env_both)) = sample_key ∧
  (∃ event,
     (@mutationFn sample_runtime env_both "hello" empty_world).1 = Done event ∧
     @finalizeEvent sample_runtime (@note_template sample_runtime env_both [] "hello")
                    sample_key = Return event ∧
     Return (pubkey event) = @getPublicKey sample_runtime sample_key) ∧
  sign_requests (@mutationFn sample_runtime env_both "hello" empty_world).2 = [] ∧
  sign_requests (@uploadToBlossom sample_runtime env_both sample_file empty_world).2 = [].
Proof.
  pose proof (proj1 (@local_key_takes_precedence sample_runtime env_both) eq_refl)
    as ((_ & _ & Hkey) & Hm & Hu).
  pose proof (Hkey sample_key sample_parseInt16_digits eq_refl) as Hbytes.
  split_and!.
  - reflexivity.
  - eexists. reflexivity.
  - exact Hbytes.
  - eexists. split; [reflexivity|]. split; [|reflexivity].
    rewrite <- Hbytes. apply (proj1 (proj2 (Hm "hello" empty_world) _ eq_refl)).
  - apply (Hm "hello" empty_world).
  - apply (Hu sample_file empty_world).
Defined.

(** C4, as stated, fails.  The metadata of [alice] is fetched at time 0;
    one minute later the feed also shows [bob], and the lookup for the
    new author list sends a query that names [alice] again. *)
Lemma metadata_requeries_fresh_author :
  relay_queries world_after_lookup = [(two_relays, metadata_filter ["alice"])] ∧
  now (env_profiles 60000) - now (env_profiles 0) < staleTime ∧
  relay_queries
    (@metadata_useQuery sample_runtime (env_profiles 60000) ["alice"; "bob"] world_after_lookup).2
  = [(two_relays, metadata_filter ["alice"]); (two_relays, metadata_filter ["alice"; "bob"])].
Proof. split_and!; reflexivity. Qed.

(** One minute later the same author list is served from the cache. *)
Lemma metadata_cache_witness :
  relay_queries
    (@metadata_useQuery sample_runtime (env_profiles 60000) ["alice"] world_after_lookup).2
  = relay_queries world_after_lookup.
Proof.
  rewrite (proj1 (@metadata_cache_per_key sample_runtime (env_profiles 60000) ["alice"]
                    world_after_lookup)
             {| data := {["alice" := JObject []]}; dataUpdatedAt := 0 |});
    [reflexivity|reflexivity|reflexivity].
Defined.

(** C9, as stated, fails.  Two endpoints deliver two versions of the
    profile of [alice]; the content of the second does not parse, and
    [alice] has an entry all the same, from the first. *)
Lemma unparsable_event_author_has_entry :
  profile_bad ∈ querySync_result (env_profiles 0) (relays (env_profiles 0))
                                 (metadata_filter ["alice"]) ∧
  @JSON_parse sample_runtime (content profile_bad) = None ∧
  ∃ m, (@metadata_queryFn sample_runtime (env_profiles 0) ["alice"] empty_world).1 = Done m ∧
       m !! pubkey profile_bad = Some (JObject []).
Proof.
  split_and!.
  - apply list_elem_of_In. simpl. auto.
  - reflexivity.
  - eexists. split; reflexivity.
Qed.

Lemma unparsable_profiles_witness :
  ∃ m, (@metadata_queryFn sample_runtime (env_profiles 0) ["alice"] empty_world).1 = Done m ∧
       is_Some (m !! "alice") ∧ m !! "bob" = None.
Proof.
  destruct (@unparsable_profiles_skipped sample_runtime (env_profiles 0) ["alice"] empty_world)
    as (m & Hm & _ & Habsent & Hpresent).
  exists m. split_and!.
  - exact Hm.
  - apply (Hpresent "alice" profile_ok (JObject [])).
    + discriminate.
    + apply list_elem_of_In. simpl. auto.
    + reflexivity.
    + reflexivity.
  - apply Habsent. intros e He Hpk.
    apply list_elem_of_In in He. simpl in He.
    destruct He as [<-|[<-|[]]]; discriminate.
Defined.

(** C6 on the sample session: the server answers 200 with the body [{}]. *)
Lemma upload_without_url_witness :
  attachments (@uploadToBlossom sample_runtime (env_upload (JObject [])) sample_file empty_world).2
  = [undefined] ∧
  alerts (@uploadToBlossom sample_runtime (env_upload (JObject [])) sample_file empty_world).2
  = [].
Proof.
  apply (@upload_without_url_recorded sample_runtime (env_upload (JObject [])) sample_file
           empty_world (file_bytes sample_file)
           (mkEvent "e0" "alice" 1700000000 24242
                    [["t"; "upload"]; ["x"; "89504e47"]] "Upload cat.png" "s0")
           "e0" (mkResponse true (Return (JObject []))) (JObject []));
    reflexivity.
Defined.


(** * Further properties of the code *)

(** ** More on [Promise.any] *)

Section PromiseAnyMore.
Context {A : Type}.
Implicit Types (outs : list (Settled A)) (sched : list nat).
Import PromiseAny.

Lemma first_ack_elem outs sched v :
  first_ack outs sched = Some v → ∃ i, i ∈ sched ∧ outs !! i = Some (Fulfilled v).
Proof.
  induction sched as [|i sched IH]; simpl; [done|].
  destruct (outs !! i) as [[v'|e]|] eqn:Hi.
  - intros [= ->]. exists i. split; [left|done].
  - intros (j & ? & ?)%IH. exists j. split; [by right|done].
  - intros (j & ? & ?)%IH. exists j. split; [by right|done].
Qed.

Lemma first_ack_none outs sched i v :
  first_ack outs sched = None → i ∈ sched → outs !! i ≠ Some (Fulfilled v).
Proof.
  induction sched as [|j sched IH]; simpl; [by intros _ ?%elem_of_nil|].
  destruct (outs !! j) as [[v'|e]|] eqn:Hj; [done| |].
  - intros Hnone [->|Hin]%elem_of_cons; [congruence|by apply IH].
  - intros Hnone [->|Hin]%elem_of_cons; [congruence|by apply IH].
Qed.

(** A fulfilled call has an input, among those settled, that fulfilled
    with that value. *)
Lemma any_fulfilled outs sched v :
  status (run outs sched) = Some (Fulfilled v) →
  ∃ i, i ∈ sched ∧ outs !! i = Some (Fulfilled v).
Proof.
  rewrite (inv_status _ _ _ (any_inv_run outs sched)).
  destruct (first_ack outs sched) as [v'|] eqn:Hfa.
  - intros [= ->]. by apply first_ack_elem.
  - by destruct (remaining (run outs sched)).
Qed.

(** Once every input has settled the call has settled. *)
Lemma any_complete outs sched :
  (∀ i, (i < length outs)%nat → i ∈ sched) → is_Some (status (run outs sched)).
Proof.
  intros Hcov. destruct (first_ack outs sched) as [v|] eqn:Hfa.
  - rewrite (any_first_ack _ _ _ Hfa). eauto.
  - rewrite any_all_rejected; [eauto| |done].
    apply Forall_lookup. intros i [v|e] Hi; [|done]. exfalso.
    eapply first_ack_none; [done| |done]. apply Hcov. by eapply lookup_lt_Some.
Qed.

End PromiseAnyMore.

(** ** More on the publish mutation *)

Section PublishMore.
Context `{Runtime}.
Implicit Types (env : Env) (w : World).

(** What the mutation changes in the state: the two logs. *)
Lemma mutationFn_world env content_ w :
  ∃ signs writes,
    (mutationFn env content_ w).2 =
    mkWorld (attachments w) (isUploading w) (postContent w) (notes_cache w)
            (metadata_cache w) (alerts w) (sign_requests w ++ signs) (relay_queries w)
            (relay_writes w ++ writes) (http_requests w) (render_error w).
Proof.
  rewrite mutationFn_unfold. destruct (truthy (userPk env)); simpl.
  - destruct (truthy (userSk env)).
    + destruct (finalizeEvent _ _) as [event|e].
      * exists [], (map (λ url, (url, event)) (relays env)).
        unfold bind. pose proof (publish_any_world env (relays env) event w) as Hw.
        destruct (publish_any env (relays env) event w) as [[v|e|] w']; simpl in *;
          subst w'; by rewrite app_nil_r.
      * exists [], []. destruct w; simpl. by rewrite !app_nil_r.
    + destruct (nostr env) as [agent|].
      * destruct (agent _) as [event|e|].
        -- eexists [_], (map (λ url, (url, event)) (relays env)).
           unfold bind.
           pose proof (publish_any_world env (relays env) event
                         (log_sign_request (note_template env (attachments w) content_) w).2)
             as Hw.
           destruct (publish_any env (relays env) event _) as [[v|e|] w']; simpl in *;
             by subst w'.
        -- eexists [_], []. simpl. by rewrite app_nil_r.
        -- eexists [_], []. simpl. by rewrite app_nil_r.
      * exists [], []. destruct w; simpl. by rewrite !app_nil_r.
  - exists [], []. destruct w; simpl. by rewrite !app_nil_r.
Qed.

(** X3.  A failed publish keeps the draft: the text and the attachments
    stay, the cached feed is untouched, and the message of the error is
    shown once.  A successful one clears both fields and shows nothing. *)
Theorem mutate_keeps_or_clears_draft (env : Env) (content_ : string) (w : World) :
  (∀ e, (mutationFn env content_ w).1 = Failed e →
        (mutate env content_ w).1 = Done tt ∧
        attachments (mutate env content_ w).2 = attachments w ∧
        postContent (mutate env content_ w).2 = postContent w ∧
        notes_cache (mutate env content_ w).2 = notes_cache w ∧
        alerts (mutate env content_ w).2 = alerts w ++ [message e]) ∧
  (∀ newEvent, (mutationFn env content_ w).1 = Done newEvent →
        attachments (mutate env content_ w).2 = [] ∧
        postContent (mutate env content_ w).2 = "" ∧
        alerts (mutate env content_ w).2 = alerts w).
Proof.
  destruct (mutationFn_world env content_ w) as (signs & writes & Hw).
  unfold mutate. destruct (mutationFn env content_ w) as [[event|e|] w'] eqn:Hm;
    simpl in Hw; subst w'; split; intros ? [=]; subst; by simpl.
Qed.

(** X4.  Who is written to: when the user is logged in and the signer
    returns an event, that one event is written once to every configured
    relay, in the order of the list, however the writes end; in every
    other case nothing is written. *)
Theorem publish_writes_every_relay (env : Env) (content_ : string) (w : World) :
  relay_writes (mutationFn env content_ w).2 =
  match (if truthy (userPk env)
         then signing env (note_template env (attachments w) content_) else None) with
  | Some (Done event) => relay_writes w ++ map (λ url, (url, event)) (relays env)
  | _ => relay_writes w
  end.
Proof.
  rewrite mutationFn_unfold. unfold signing. destruct (truthy (userPk env)); simpl; [|done].
  destruct (truthy (userSk env)).
  - destruct (finalizeEvent _ _) as [event|e]; [|done].
    unfold bind. pose proof (publish_any_world env (relays env) event w) as Hw.
    destruct (publish_any env (relays env) event w) as [[v|e|] w']; simpl in *; by subst w'.
  - destruct (nostr env) as [agent|]; [|done].
    destruct (agent _) as [event|e|]; [|done|done].
    unfold bind.
    pose proof (publish_any_world env (relays env) event
                  (log_sign_request (note_template env (attachments w) content_) w).2) as Hw.
    destruct (publish_any env (relays env) event _) as [[v|e|] w']; simpl in *; by subst w'.
Qed.

Lemma publish_any_status env urls event w :
  (publish_any env urls event w).1 =
  match PromiseAny.status (PromiseAny.run (pool_publish env urls event) (settled_writes env)) with
  | Some (Fulfilled v) => Done v
  | Some (Rejected e) => Failed e
  | None => Suspended
  end.
Proof.
  unfold publish_any, bind, log_relay_writes, modify.
  by destruct (PromiseAny.status _) as [[v|e]|].
Qed.

(** The mutation ends as its publish step does, or earlier; before the
    publish step it waits only for the agent. *)
Lemma mutationFn_outcome env content_ w :
  (∃ e, (mutationFn env content_ w).1 = Failed e ∧
        relay_writes (mutationFn env content_ w).2 = relay_writes w) ∨
  ((mutationFn env content_ w).1 = Suspended ∧
   truthy (userPk env) = true ∧
   signing env (note_template env (attachments w) content_) = Some Suspended) ∨
  ∃ event w',
    truthy (userPk env) = true ∧
    signing env (note_template env (attachments w) content_) = Some (Done event) ∧
    (mutationFn env content_ w).1 =
    match (publish_any env (relays env) event w').1 with
    | Done _ => Done event
    | Failed e => Failed e
    | Suspended => Suspended
    end.
Proof.
  rewrite mutationFn_unfold. unfold signing.
  destruct (truthy (userPk env)); simpl; [|left; eauto].
  destruct (truthy (userSk env)).
  - destruct (finalizeEvent _ _) as [event|e]; [|left; eauto].
    right. right. exists event, w. unfold bind.
    by destruct (publish_any env (relays env) event w) as [[v|e|] w'].
  - destruct (nostr env) as [agent|]; [|left; eauto].
    destruct (agent _) as [event|e|]; [|left; eauto|right; left; eauto].
    right. right.
    exists event, (log_sign_request (note_template env (attachments w) content_) w).2.
    unfold bind. by destruct (publish_any _ _ _ _) as [[v|e|] w'].
Qed.

(** X5.  Once every write has settled, the mutation is waiting exactly
    when the user is logged in without a local key and the agent has not
    yet answered the request to sign; otherwise it has returned or
    thrown. *)
Theorem publish_settles (env : Env) (content_ : string) (w : World) :
  (∀ i, (i < length (relays env))%nat → i ∈ settled_writes env) →
  (mutationFn env content_ w).1 = Suspended ↔
  truthy (userPk env) = true ∧
  signing env (note_template env (attachments w) content_) = Some Suspended.
Proof.
  intros Hcov.
  destruct (mutationFn_outcome env content_ w)
    as [(e & Hm & _)|[(Hm & Hpk & Hs)|(event & w' & Hpk & Hs & Hm)]].
  - rewrite Hm. split; [done|]. intros [Hpk Hs]. exfalso.
    rewrite mutationFn_unfold, Hpk in Hm. unfold signing in Hs. simpl in Hm.
    destruct (truthy (userSk env)).
    + by destruct (finalizeEvent _ _).
    + destruct (nostr env) as [agent|]; [|done]. injection Hs as Hs. by rewrite Hs in Hm.
  - by rewrite Hm.
  - rewrite Hm, Hs, publish_any_status.
    assert (∀ i, (i < length (pool_publish env (relays env) event))%nat →
                 i ∈ settled_writes env) as Hall.
    { intros i Hi. apply Hcov. by rewrite pool_publish_length in Hi. }
    destruct (any_complete (pool_publish env (relays env) event) (settled_writes env) Hall)
      as [[v|e] ->]; (split; [done|by intros [_ [=]]]).
Qed.

(** X6.  The mutation returns an event only when one of the writes that
    have settled was acknowledged by its relay, for that very event. *)
Theorem publish_success_needs_ack (env : Env) (content_ : string) (w : World)
    (newEvent : NostrEvent) :
  (mutationFn env content_ w).1 = Done newEvent →
  ∃ i url v,
    i ∈ settled_writes env ∧
    relays env !! i = Some url ∧
    relay_write env i url newEvent = Fulfilled v.
Proof.
  destruct (mutationFn_outcome env content_ w)
    as [(e & -> & _)|[(-> & _)|(event & w' & _ & _ & ->)]]; [done..|].
  rewrite publish_any_status.
  destruct (PromiseAny.status _) as [[v|e]|] eqn:Hst; [|done..].
  intros [= ->]. apply any_fulfilled in Hst as (i & Hi & Hout).
  unfold pool_publish in Hout. rewrite list_lookup_imap in Hout.
  destruct (relays env !! i) as [url|] eqn:Hurl; [|done].
  simpl in Hout. injection Hout as Hout. by exists i, url, v.
Qed.

(** X7.  The note signed with the local key is a text note without tags,
    stamped with the clock in seconds, whose content is the text,
    followed, when there are attachments, by an empty line and the
    attachments one per line. *)
Theorem published_note_fields (env : Env) (content_ : string) (w : World)
    (newEvent : NostrEvent) :
  truthy (userSk env) = true →
  (mutationFn env content_ w).1 = Done newEvent →
  kind newEvent = 1 ∧
  tags newEvent = [] ∧
  created_at newEvent = now env / 1000 ∧
  content newEvent =
    match attachments w with
    | [] => content_
    | _ => content_ +:+ (LF +:+ LF) +:+ String.concat LF (map join_element (attachments w))
    end.
Proof.
  intros Hsk. rewrite mutationFn_unfold, Hsk.
  destruct (truthy (userPk env)); simpl; [|done].
  destruct (finalizeEvent _ _) as [event|e] eqn:Hsigned; [|done].
  unfold bind. destruct (publish_any env (relays env) event w) as [[v|e|] w']; [|done..].
  intros [= <-]. destruct (finalizeEvent_fields _ _ _ Hsigned) as (-> & -> & -> & ->).
  split_and!; try done. simpl. by destruct (attachments w).
Qed.

End PublishMore.

(** ** More on the upload and the attachments *)

Section UploadMore.
Context `{Runtime}.
Implicit Types (env : Env) (w : World).

(** Every path through [uploadToBlossom], one goal for each. *)
Ltac upload_paths env file :=
  rewrite uploadToBlossom_unfold;
  unfold signing, upload_failed, upload_recorded, setAttachments_at_render, modify;
  destruct (truthy (userPk env)) eqn:?; simpl;
  [ destruct (digest_sha256 file) as [?digest|?e] eqn:?; simpl;
    [ destruct (truthy (userSk env)) eqn:?; simpl;
      [ destruct (finalizeEvent _ _) as [?signed|?e] eqn:?; simpl
      | destruct (nostr env) as [?agent|] eqn:?; simpl;
        [ destruct (_ (upload_template _ _ _)) as [?signed|?e|] eqn:?; simpl | ] ]
    | ]
  | ];
  repeat match goal with
         | |- context [match btoa ?s with _ => _ end] => destruct (btoa s) eqn:?; simpl
         | |- context [match fetch env ?r with _ => _ end] => destruct (fetch env r) eqn:?; simpl
         | |- context [negb (ok ?r)] => destruct (ok r) eqn:?; simpl
         | |- context [match json ?r with _ => _ end] => destruct (json r) eqn:?; simpl
         | |- context [match get ?b "url" with _ => _ end] => destruct (get b "url") eqn:?; simpl
         end.

(** X9.  Without a public key the upload does nothing at all.  With one,
    the busy flag is up while the upload is waiting, and it is cleared
    when the upload has returned, whichever step it ended at, as long as
    no updater has thrown at render and the component is still there to
    show it. *)
Theorem upload_clears_flag (env : Env) (file : File) (w : World) :
  (truthy (userPk env) = false → uploadToBlossom env file w = (Done tt, w)) ∧
  (truthy (userPk env) = true →
   ((uploadToBlossom env file w).1 = Suspended →
    isUploading (uploadToBlossom env file w).2 = true) ∧
   ((uploadToBlossom env file w).1 = Done tt →
    render_error (uploadToBlossom env file w).2 = None →
    isUploading (uploadToBlossom env file w).2 = false)).
Proof.
  split; intros Hpk.
  - by rewrite uploadToBlossom_unfold, Hpk.
  - upload_paths env file; try congruence; by split.
Qed.

Lemma filter_index_id {A} (j i1 : nat) (xs : list A) :
  (j < i1)%nat → filter_index (λ i, negb (i =? j)%nat) i1 xs = xs.
Proof.
  revert i1. induction xs as [|x xs IH]; intros i1 Hlt; simpl; [done|].
  destruct (Nat.eqb_spec i1 j); [lia|]. simpl. f_equal. apply IH. lia.
Qed.

Lemma filter_index_delete {A} (i0 idx : nat) (xs : list A) :
  filter_index (λ i, negb (i =? i0 + idx)%nat) i0 xs = delete idx xs.
Proof.
  revert i0 idx. induction xs as [|x xs IH]; intros i0 idx; [by destruct idx|].
  simpl. destruct idx as [|idx].
  - rewrite Nat.add_0_r, Nat.eqb_refl. simpl. apply filter_index_id. lia.
  - destruct (Nat.eqb_spec i0 (i0 + S idx)); [lia|]. simpl. f_equal.
    replace (i0 + S idx)%nat with (S i0 + idx)%nat by lia. apply IH.
Qed.

(** X10.  The remove button drops exactly the attachment at its index and
    keeps the others in order; an index past the end drops nothing; and
    removing the attachment that an upload has just added gives back the
    list from before the upload. *)
Theorem removeAttachment_delete (idx : nat) (prev : list Value) (url : Value) :
  removeAttachment idx prev = delete idx prev ∧
  ((length prev ≤ idx)%nat → removeAttachment idx prev = prev) ∧
  removeAttachment (length prev) (prev ++ [url]) = prev.
Proof.
  assert (∀ i l, removeAttachment i l = delete i l) as Hdel.
  { intros i l. apply (filter_index_delete 0 i l). }
  split_and!.
  - apply Hdel.
  - intros Hge. rewrite Hdel. revert idx Hge.
    induction prev as [|x xs IH]; intros [|idx] Hge; simpl in *; try done; [lia|].
    f_equal. apply IH. lia.
  - rewrite Hdel. induction prev as [|x xs IH]; simpl; [done|]. by rewrite IH.
Qed.

End UploadMore.

(** ** More on the feed and the profiles *)

Section FeedMore.
Context `{Runtime}.
Implicit Types (env : Env) (w : World).

Lemma from_Set_sound seen xs x : x ∈ from_Set seen xs → x ∈ xs ∧ x ∉ seen.
Proof.
  revert seen. induction xs as [|y xs IH]; intros seen; simpl.
  - by intros ?%elem_of_nil.
  - destruct (existsb (String.eqb y) seen) eqn:Hseen.
    + intros [? ?]%IH. split; [by right|done].
    + assert (y ∉ seen) as Hn by (intros Hin%existsb_eqb_elem; congruence).
      intros [->|[? Hnot]%IH]%elem_of_cons; [split; [left|done]|].
      split; [by right|]. intros ?. apply Hnot. by right.
Qed.

Lemma from_Set_NoDup seen xs : NoDup (from_Set seen xs).
Proof.
  revert seen. induction xs as [|y xs IH]; intros seen; simpl; [constructor|].
  destruct (existsb (String.eqb y) seen); [apply IH|].
  constructor; [|apply IH]. intros [_ Hnot]%from_Set_sound. apply Hnot. left.
Qed.

Lemma from_Set_complete seen xs x : x ∈ xs → x ∉ seen → x ∈ from_Set seen xs.
Proof.
  revert seen. induction xs as [|y xs IH]; intros seen; simpl.
  - by intros ?%elem_of_nil.
  - intros Hx Hseen. destruct (existsb (String.eqb y) seen) eqn:Hs.
    + apply elem_of_cons in Hx as [->|Hx]; [|by apply IH].
      apply existsb_eqb_elem in Hs. done.
    + apply elem_of_cons in Hx as [->|Hx]; [left|].
      destruct (decide (x = y)) as [->|Hne]; [left|]. right. apply IH; [done|].
      intros [?|?]%elem_of_cons; done.
Qed.

(** X11.  The author list of the metadata query names every author of
    the feed exactly once. *)
Theorem authorPubkeys_distinct (env : Env) (w : World) :
  NoDup (authorPubkeys env w) ∧
  ∀ pk, pk ∈ authorPubkeys env w ↔ ∃ note, note ∈ notes env w ∧ pubkey note = pk.
Proof.
  unfold authorPubkeys. split; [apply from_Set_NoDup|]. intros pk. split.
  - intros [(note & -> & Hin)%list_elem_of_fmap _]%from_Set_sound. eauto.
  - intros (note & Hin & <-). apply from_Set_complete; [|apply not_elem_of_nil].
    apply list_elem_of_fmap. eauto.
Qed.

Lemma parsed_versions_snoc pk (events : list NostrEvent) e :
  parsed_versions pk (events ++ [e]) =
  parsed_versions pk events ++
  (if decide (pubkey e = pk) then option_list (JSON_parse (content e)) else []).
Proof.
  unfold parsed_versions. rewrite omap_app. f_equal. csimpl.
  destruct (decide (pubkey e = pk)); [|done]. by destruct (JSON_parse (content e)).
Qed.

Lemma profiles_last pk (events : list NostrEvent) :
  foldl record_profile ∅ events !! pk = last (parsed_versions pk events).
Proof.
  induction events as [|e events IH] using rev_ind; [done|].
  rewrite foldl_app, parsed_versions_snoc. simpl. unfold record_profile at 1.
  destruct (decide (pubkey e = pk)) as [Heq|Hne].
  - destruct (JSON_parse (content e)) as [parsed|]; simpl.
    + by rewrite last_snoc, <- Heq, lookup_insert_eq.
    + by rewrite app_nil_r.
  - rewrite app_nil_r. destruct (JSON_parse (content e)); [|done].
    by rewrite lookup_insert_ne.
Qed.

(** X13.  Which version of a profile is shown: the entry of an author is
    the parsed content of the last parsable event delivered for that
    author, whatever the [created_at] of the events. *)
Theorem profile_last_delivered_wins (env : Env) (authors_ : list string) (w : World) :
  authors_ ≠ [] →
  ∃ m, (metadata_queryFn env authors_ w).1 = Done m ∧
       ∀ pk, m !! pk =
             last (parsed_versions pk
                     (querySync_result env (relays env) (metadata_filter authors_))).
Proof.
  intros Hne. unfold metadata_queryFn. destruct authors_ as [|a authors_]; [done|].
  eexists. split; [done|]. intros pk. apply profiles_last.
Qed.

End FeedMore.

(** ** The desktop shell *)

Lemma set_window_eq app entry prev : set_window app entry prev app = entry.
Proof. unfold set_window. by destruct (decide (app = app)). Qed.

Lemma set_window_ne app entry prev k : k ≠ app → set_window app entry prev k = prev k.
Proof. unfold set_window. by destruct (decide (k = app)). Qed.

Lemma initial_desktop_ok : desktop_ok initial_desktop.
Proof.
  split; simpl.
  - by intros [].
  - intros []; simpl; lia.
  - lia.
  - by intros [].
  - intros [] []; simpl; try done; lia.
  - by intros ? [= <-].
  - by intros [].
Qed.

(** Raising a window keeps the desktop well formed. *)
Lemma raise_ok (d : Desktop) (app : AppId) (open : bool) (menu : bool) :
  desktop_ok d →
  desktop_ok
    {| windows :=
         set_window app
           (mkWindow (win_id (windows d app)) (title (windows d app))
                     (open || isOpen (windows d app)) false
                     (highestZIndex d + 1) (win_x (windows d app)) (win_y (windows d app)))
           (windows d);
       activeApp := Some app;
       highestZIndex := highestZIndex d + 1;
       isStartMenuOpen := menu |}.
Proof.
  intros [Hid Hbelow Hbase Hopen Hdist Hact Hfix]. split; simpl.
  - intros k. destruct (decide (k = app)) as [->|Hne].
    + rewrite set_window_eq. apply Hid.
    + rewrite set_window_ne by done. apply Hid.
  - intros k. destruct (decide (k = app)) as [->|Hne].
    + rewrite set_window_eq. simpl. lia.
    + rewrite set_window_ne by done. specialize (Hbelow k). lia.
  - lia.
  - intros k. destruct (decide (k = app)) as [->|Hne].
    + rewrite set_window_eq. simpl. lia.
    + rewrite set_window_ne by done. apply Hopen.
  - intros j k. destruct (decide (j = app)) as [->|Hj], (decide (k = app)) as [->|Hk];
      rewrite ?set_window_eq, ?set_window_ne by done; simpl; try done.
    + intros _ Heq. specialize (Hbelow k). lia.
    + intros _ Heq. specialize (Hbelow j). lia.
    + apply Hdist.
  - intros k [= <-]. by rewrite set_window_eq.
  - intros k. destruct (decide (k = app)) as [->|Hne].
    + rewrite set_window_eq. simpl. apply Hfix.
    + rewrite set_window_ne by done. apply Hfix.
Qed.

Lemma openApp_ok d app : desktop_ok d → desktop_ok (openApp app d).
Proof. intros Hd. exact (raise_ok d app true false Hd). Qed.

Lemma focusApp_ok d app : desktop_ok d → desktop_ok (focusApp app d).
Proof. intros Hd. exact (raise_ok d app false (isStartMenuOpen d) Hd). Qed.

(** Hiding a window keeps the desktop well formed. *)
Lemma hide_ok (d : Desktop) (app : AppId) (open minimized : bool) :
  desktop_ok d →
  (open = true → isOpen (windows d app) = true) →
  desktop_ok
    {| windows :=
         set_window app
           (mkWindow (win_id (windows d app)) (title (windows d app)) open minimized
                     (zIndex (windows d app)) (win_x (windows d app)) (win_y (windows d app)))
           (windows d);
       activeApp := if decide (activeApp d = Some app) then None else activeApp d;
       highestZIndex := highestZIndex d;
       isStartMenuOpen := isStartMenuOpen d |}.
Proof.
  intros [Hid Hbelow Hbase Hopen Hdist Hact Hfix] Hwas. split; simpl.
  - intros k. destruct (decide (k = app)) as [->|Hne].
    + rewrite set_window_eq. apply Hid.
    + rewrite set_window_ne by done. apply Hid.
  - intros k. destruct (decide (k = app)) as [->|Hne].
    + rewrite set_window_eq. simpl. apply Hbelow.
    + rewrite set_window_ne by done. apply Hbelow.
  - done.
  - intros k. destruct (decide (k = app)) as [->|Hne].
    + rewrite set_window_eq. simpl. intros ->. by apply Hopen, Hwas.
    + rewrite set_window_ne by done. apply Hopen.
  - intros j k. destruct (decide (j = app)) as [->|Hj], (decide (k = app)) as [->|Hk];
      rewrite ?set_window_eq, ?set_window_ne by done; simpl; try done; apply Hdist.
  - intros k. destruct (decide (activeApp d = Some app)) as [Heq|Hne]; [done|].
    intros Hk. rewrite set_window_ne by congruence. by apply Hact.
  - intros k. destruct (decide (k = app)) as [->|Hne].
    + rewrite set_window_eq. simpl. apply Hfix.
    + rewrite set_window_ne by done. apply Hfix.
Qed.

Lemma closeApp_ok d app : desktop_ok d → desktop_ok (closeApp app d).
Proof. intros Hd. by apply (hide_ok d app false (isMinimized (windows d app)) Hd). Qed.

Lemma minimizeApp_ok d app : desktop_ok d → desktop_ok (minimizeApp app d).
Proof. intros Hd. by apply (hide_ok d app (isOpen (windows d app)) true Hd). Qed.

Lemma perform_ok d a : desktop_ok d → desktop_ok (perform d a).
Proof.
  intros Hd. destruct a as [app|app|app|app| |key]; simpl.
  - by apply openApp_ok.
  - by apply closeApp_ok.
  - by apply minimizeApp_ok.
  - by apply focusApp_ok.
  - by destruct Hd.
  - unfold taskbarClick. destruct (isMinimized _); [by apply focusApp_ok|].
    destruct (decide _); [by apply minimizeApp_ok|by apply focusApp_ok].
Qed.

Lemma reachable_ok (actions : list DesktopAction) :
  desktop_ok (foldl perform initial_desktop actions).
Proof.
  induction actions as [|a actions IH] using rev_ind; [apply initial_desktop_ok|].
  rewrite foldl_app. by apply perform_ok.
Qed.

(** X14.  Whatever the user does, two different open windows never have
    the same [zIndex], so the stacking of the windows on screen is
    determined; the active window is never a minimized one; and no window
    changes its position or its title. *)
Theorem desktop_stacking_determined (actions : list DesktopAction) (j k : AppId) :
  let d := foldl perform initial_desktop actions in
  (isOpen (windows d j) = true → isOpen (windows d k) = true →
   zIndex (windows d j) = zIndex (windows d k) → j = k) ∧
  (activeApp d = Some k → isMinimized (windows d k) = false) ∧
  win_x (windows d k) = win_x (initial_windows k) ∧
  win_y (windows d k) = win_y (initial_windows k) ∧
  title (windows d k) = title (initial_windows k).
Proof.
  intros d. destruct (reachable_ok actions) as [Hid Hbelow Hbase Hopen Hdist Hact Hfix].
  fold d in Hid, Hbelow, Hbase, Hopen, Hdist, Hact, Hfix.
  destruct (Hfix k) as (? & ? & ?). split_and!; try done.
  - intros Hj _ Heq. apply Hdist; [by apply Hopen|done].
  - apply Hact.
Qed.

(** X15.  Opening or focusing a window puts it above every other window
    and makes it the active one, not minimized; opening also makes it
    open and closes the start menu, while focusing leaves both as they
    were. *)
Theorem raised_window_on_top (actions : list DesktopAction) (app : AppId) :
  let d := foldl perform initial_desktop actions in
  (∀ k, k ≠ app → zIndex (windows (openApp app d) k) < zIndex (windows (openApp app d) app)) ∧
  (∀ k, k ≠ app → zIndex (windows (focusApp app d) k) < zIndex (windows (focusApp app d) app)) ∧
  drawn (openApp app d) app = true ∧
  activeApp (openApp app d) = Some app ∧
  isStartMenuOpen (openApp app d) = false ∧
  activeApp (focusApp app d) = Some app ∧
  isMinimized (windows (focusApp app d) app) = false ∧
  isOpen (windows (focusApp app d) app) = isOpen (windows d app) ∧
  isStartMenuOpen (focusApp app d) = isStartMenuOpen d.
Proof.
  intros d. pose proof (ok_below _ (reachable_ok actions)) as Hbelow. fold d in Hbelow.
  unfold drawn. simpl. rewrite !set_window_eq. simpl. split_and!; try done.
  - intros k Hk. rewrite set_window_ne by done. specialize (Hbelow k). lia.
  - intros k Hk. rewrite set_window_ne by done. specialize (Hbelow k). lia.
Qed.

(** X16.  The taskbar icon of the active window, when it is on screen,
    works as a toggle: one click minimizes it and leaves no window active,
    a second click brings it back, active and above all others. *)
Theorem taskbar_toggles (actions : list DesktopAction) (key : AppId) :
  let d := foldl perform initial_desktop actions in
  drawn d key = true →
  activeApp d = Some key →
  let d1 := taskbarClick key d in
  let d2 := taskbarClick key d1 in
  drawn d1 key = false ∧ activeApp d1 = None ∧
  drawn d2 key = true ∧ activeApp d2 = Some key ∧
  ∀ k, k ≠ key → zIndex (windows d2 k) < zIndex (windows d2 key).
Proof.
  intros d Hdrawn Hactive d1 d2.
  destruct (reachable_ok actions) as [Hid Hbelow _ _ _ _ _]. fold d in Hid, Hbelow.
  unfold drawn in Hdrawn. apply andb_true_iff in Hdrawn as [Hopen Hmin%negb_true_iff].
  assert (d1 = minimizeApp key d) as Hd1.
  { unfold d1, taskbarClick. rewrite Hmin, Hid.
    by destruct (decide (activeApp d = Some key)). }
  assert (d2 = focusApp key d1) as Hd2.
  { unfold d2, taskbarClick. rewrite Hd1. simpl. rewrite set_window_eq. simpl.
    by rewrite Hid. }
  rewrite Hd2, Hd1. unfold drawn. simpl. rewrite !set_window_eq. simpl.
  rewrite Hopen. destruct (decide (activeApp d = Some key)); [|done].
  split_and!; try done.
  intros k Hk. rewrite !set_window_ne by done. specialize (Hbelow k). lia.
Qed.

(** ** The session *)

Section SessionFacts.
Context `{Runtime}.
Variable decode : string → Completion (list Byte.byte).
Variable accepts : gmap string string → string → string → bool.
Implicit Types (s : Session) (env : Env) (w : World).

(** [loginWithSk] either finds the key invalid, changes nothing and says
    so, or sets the state and goes on to the two writes. *)
Lemma loginWithSk_cases sk s :
  (∃ hexSk pk,
     getPublicKey (hexToBytes hexSk) = Return pk ∧
     (String.prefix "nsec" sk = false → hexSk = sk) ∧
     loginWithSk decode accepts sk s =
       if accepts (localStorage s) "nostr_sk" hexSk then
         if accepts (<["nostr_sk" := hexSk]> (localStorage s)) "nostr_pk" pk then
           mkSession (Some hexSk) (Some pk)
                     (<["nostr_pk" := pk]> (<["nostr_sk" := hexSk]> (localStorage s)))
                     (s_alerts s ++ ["Logged in successfully!"])
         else
           mkSession (Some hexSk) (Some pk) (<["nostr_sk" := hexSk]> (localStorage s))
                     (s_alerts s ++ ["Invalid secret key"])
       else
         mkSession (Some hexSk) (Some pk) (localStorage s)
                   (s_alerts s ++ ["Invalid secret key"])) ∨
  loginWithSk decode accepts sk s = session_alert "Invalid secret key" s.
Proof.
  assert (∀ hexSk pk,
    match setItem accepts "nostr_sk" hexSk (set_keys (Some hexSk) (Some pk) s) with
    | Throw _ => session_alert "Invalid secret key" (set_keys (Some hexSk) (Some pk) s)
    | Return s2 =>
        match setItem accepts "nostr_pk" pk s2 with
        | Throw _ => session_alert "Invalid secret key" s2
        | Return s3 => session_alert "Logged in successfully!" s3
        end
    end =
    if accepts (localStorage s) "nostr_sk" hexSk then
      if accepts (<["nostr_sk" := hexSk]> (localStorage s)) "nostr_pk" pk then
        mkSession (Some hexSk) (Some pk)
                  (<["nostr_pk" := pk]> (<["nostr_sk" := hexSk]> (localStorage s)))
                  (s_alerts s ++ ["Logged in successfully!"])
      else
        mkSession (Some hexSk) (Some pk) (<["nostr_sk" := hexSk]> (localStorage s))
                  (s_alerts s ++ ["Invalid secret key"])
    else
      mkSession (Some hexSk) (Some pk) (localStorage s)
                (s_alerts s ++ ["Invalid secret key"])) as Hwrites.
  { intros hexSk pk. unfold setItem, set_keys, session_alert. simpl.
    destruct (accepts (localStorage s) "nostr_sk" hexSk); [|done]. simpl.
    by destruct (accepts _ "nostr_pk" pk). }
  unfold loginWithSk. destruct (String.prefix "nsec" sk).
  - destruct (decode sk) as [data_|e]; [|by right].
    destruct (getPublicKey _) as [pk|e] eqn:Hpk; [|by right].
    left. exists (bytesToHex data_), pk. by rewrite <- Hwrites.
  - destruct (getPublicKey _) as [pk|e] eqn:Hpk; [|by right].
    left. exists sk, pk. by rewrite <- Hwrites.
Qed.

Lemma session_step_synced s a :
  (∀ storage key value, accepts storage key value = true) →
  session_synced s → session_synced (session_step decode accepts s a).
Proof.
  intros Hacc [Hsk Hpk]. destruct a as [sk|extension|]; simpl.
  - destruct (loginWithSk_cases sk s) as [(hexSk & pk & _ & _ & ->)| ->]; [|done].
    rewrite !Hacc. split; simpl.
    + rewrite lookup_insert_ne by done. by rewrite lookup_insert_eq.
    + by rewrite lookup_insert_eq.
  - destruct extension as [[pk|e|]|]; [|done..].
    unfold loginWithExtension, setItem. rewrite Hacc. split; simpl.
    + by rewrite lookup_delete_eq.
    + rewrite lookup_delete_ne by done. by rewrite lookup_insert_eq.
  - split; simpl.
    + rewrite lookup_delete_ne by done. by rewrite lookup_delete_eq.
    + by rewrite lookup_delete_eq.
Qed.

(** X17.  As long as the storage takes every write, the key material in
    memory and in [localStorage] agree: after any sequence of logins and
    logouts, the secret and the public key held by [App] are what a
    reload would read back from the storage. *)
Theorem session_storage_agree (storage : gmap string string) (actions : list SessionAction) :
  (∀ storage key value, accepts storage key value = true) →
  let s := foldl (session_step decode accepts) (initial_session storage) actions in
  s_userSk s = s_userSk (initial_session (localStorage s)) ∧
  s_userPk s = s_userPk (initial_session (localStorage s)).
Proof.
  intros Hacc s. assert (session_synced s) as [Hsk Hpk]; [|by simpl].
  unfold s. induction actions as [|a actions IH] using rev_ind; [done|].
  rewrite foldl_app. by apply session_step_synced.
Qed.


(** X19.  After a logout nothing can be sent: the publish mutation throws
    "Not logged in", the upload and the relay-list sync return at once,
    all three without touching the state; and the storage no longer
    holds either key, so a reload starts logged out. *)
Theorem logout_blocks_everything (s : Session) (env : Env) (content_ : string)
    (file : File) (w : World) :
  let env' := with_session (logout s) env in
  mutationFn env' content_ w = (Failed (Error "Not logged in"), w) ∧
  uploadToBlossom env' file w = (Done tt, w) ∧
  syncNip65 env' w = (Done tt, w) ∧
  s_userSk (initial_session (localStorage (logout s))) = None ∧
  s_userPk (initial_session (localStorage (logout s))) = None.
Proof.
  intros env'. split_and!.
  - by rewrite mutationFn_unfold.
  - by rewrite uploadToBlossom_unfold.
  - done.
  - simpl. rewrite lookup_delete_ne by done. by rewrite lookup_delete_eq.
  - simpl. by rewrite lookup_delete_eq.
Qed.

(** X20.  A login through the extension drops a stored secret key from
    the state, and from the storage when the storage takes the write of
    the public key that precedes the removal; a later publish is signed
    by the agent: it is asked once, with the template of the note. *)
Theorem extension_login_uses_agent (s : Session) (env : Env) (pk : string)
    (agent : EventTemplate → Outcome NostrEvent) (content_ : string) (w : World) :
  pk ≠ "" →
  nostr env = Some agent →
  let s' := loginWithExtension accepts (Some (Done pk)) s in
  let env' := with_session s' env in
  s_userSk s' = None ∧
  s_userPk s' = Some pk ∧
  (accepts (localStorage s) "nostr_pk" pk = true → localStorage s' !! "nostr_sk" = None) ∧
  (accepts (localStorage s) "nostr_pk" pk = false →
   localStorage s' = localStorage s ∧
   s_alerts s' = s_alerts s ++ ["Extension login failed"]) ∧
  sign_requests (mutationFn env' content_ w).2 =
    sign_requests w ++ [note_template env' (attachments w) content_].
Proof.
  intros Hpk Hagent s' env'.
  assert (s_userSk s' = None ∧ s_userPk s' = Some pk) as [Hsk' Hpk'].
  { unfold s', loginWithExtension, setItem. simpl.
    by destruct (accepts (localStorage s) "nostr_pk" pk). }
  split_and!; try done.
  - intros Hacc. unfold s', loginWithExtension, setItem. simpl. rewrite Hacc. simpl.
    by rewrite lookup_delete_eq.
  - intros Hacc. unfold s', loginWithExtension, setItem. simpl. by rewrite Hacc.
  - rewrite mutationFn_sign_requests. unfold env'. simpl. rewrite Hsk', Hpk', Hagent. simpl.
    assert (String.eqb pk "" = false) as -> by by apply String.eqb_neq.
    done.
Qed.

(** X21.  A login with an [nsec] key stores the hexadecimal form of the
    decoded bytes, and what later signs is those very bytes: on a platform
    whose [parseInt] reads back the digits of [bytesToHex], the key that
    [finalizeEvent] receives after the login is the decoded key. *)
Theorem nsec_login_key (sk : string) (s : Session) (data_ : list Byte.byte) (pk : string) :
  (∀ b, parseInt16 (padStart2 (toString16 b)) = Some (Z.of_N (Byte.to_N b))) →
  String.prefix "nsec" sk = true →
  decode sk = Return data_ →
  getPublicKey data_ = Return pk →
  let s' := loginWithSk decode accepts sk s in
  s_userSk s' = Some (bytesToHex data_) ∧
  s_userPk s' = Some pk ∧
  hexToBytes (default "" (s_userSk s')) = data_.
Proof.
  intros Hparse Hprefix Hdecode Hpk s'. unfold s', loginWithSk, setItem.
  rewrite Hprefix, Hdecode, (hex_round_trip_aux _ Hparse), Hpk. simpl.
  destruct (accepts (localStorage s) "nostr_sk" _); simpl;
    [destruct (accepts _ "nostr_pk" pk); simpl|];
    (split_and!; try done; by apply hex_round_trip_aux).
Qed.

End SessionFacts.

(** ** The relay settings *)

Lemma includes_elem (urls : list string) (url : string) :
  includes urls url = true ↔ url ∈ urls.
Proof. apply existsb_eqb_elem. Qed.

Lemma filter_ne_elem (url r : string) (urls : list string) :
  r ∈ List.filter (λ r, negb (String.eqb r url)) urls ↔ r ∈ urls ∧ r ≠ url.
Proof.
  rewrite !list_elem_of_In, filter_In, negb_true_iff, String.eqb_neq. done.
Qed.

Lemma filter_ne_id (url : string) (urls : list string) :
  url ∉ urls → List.filter (λ r, negb (String.eqb r url)) urls = urls.
Proof.
  induction urls as [|r urls IH]; intros Hnot; simpl; [done|].
  destruct (String.eqb_spec r url) as [->|Hne]; simpl.
  - exfalso. apply Hnot. left.
  - f_equal. apply IH. intros ?. apply Hnot. by right.
Qed.

Lemma addRelay_fresh (st : RelaySettings) :
  newRelay st ≠ "" → newRelay st ∉ relay_list st →
  addRelay st = mkSettings (relay_list st ++ [newRelay st]) "".
Proof.
  intros Hfull Hnot. unfold addRelay.
  destruct (String.eqb_spec (newRelay st) ""); [done|].
  destruct (includes (relay_list st) (newRelay st)) eqn:Hinc; [|done].
  by apply includes_elem in Hinc.
Qed.

(** X22.  [addRelay] keeps the relay list free of duplicates: an empty
    entry or a relay already listed changes nothing, not even the input
    field; any other entry goes to the end of the list and the field is
    cleared. *)
Theorem addRelay_distinct (st : RelaySettings) :
  (newRelay st = "" ∨ newRelay st ∈ relay_list st → addRelay st = st) ∧
  (newRelay st ≠ "" → newRelay st ∉ relay_list st →
   addRelay st = mkSettings (relay_list st ++ [newRelay st]) "") ∧
  (NoDup (relay_list st) → NoDup (relay_list (addRelay st))).
Proof.
  unfold addRelay.
  destruct (String.eqb_spec (newRelay st) "") as [Hempty|Hfull]; simpl.
  { split_and!; done. }
  destruct (includes (relay_list st) (newRelay st)) eqn:Hinc; simpl.
  - apply includes_elem in Hinc. split_and!; done.
  - assert (newRelay st ∉ relay_list st) as Hnot.
    { intros Hin%includes_elem. congruence. }
    split_and!; try done.
    + by intros [?|?].
    + intros Hnd. apply NoDup_app. split_and!; [done| |apply NoDup_singleton].
      intros r Hr ->%list_elem_of_singleton. done.
Qed.

Lemma filter_ne_filter (url : string) (urls : list string) :
  List.filter (λ r, negb (String.eqb r url)) urls = filter (λ r, r ≠ url) urls.
Proof.
  induction urls as [|r urls IH]; [done|]. simpl. rewrite filter_cons, IH.
  destruct (String.eqb_spec r url) as [->|Hne]; simpl.
  - by rewrite decide_False by (intros Hne; by apply Hne).
  - by rewrite decide_True.
Qed.

(** X23.  [removeRelay] removes the relay wherever it occurs and keeps
    every other relay, each occurrence of it, in the order of the list;
    the input field is untouched; the list is unchanged when the relay is
    not in it; and removing a relay that was just added gives back the
    list from before. *)
Theorem removeRelay_removes (url : string) (st : RelaySettings) :
  (url ∉ relay_list (removeRelay url st)) ∧
  (∀ r, r ≠ url → (r ∈ relay_list (removeRelay url st) ↔ r ∈ relay_list st)) ∧
  relay_list (removeRelay url st) `sublist_of` relay_list st ∧
  (∀ before after,
     relay_list st = before ++ after →
     relay_list (removeRelay url st) =
       relay_list (removeRelay url (mkSettings before (newRelay st))) ++
       relay_list (removeRelay url (mkSettings after (newRelay st)))) ∧
  (∀ r, r ≠ url → relay_list (removeRelay url (mkSettings [r] (newRelay st))) = [r]) ∧
  newRelay (removeRelay url st) = newRelay st ∧
  (url ∉ relay_list st → removeRelay url st = st) ∧
  (NoDup (relay_list st) → NoDup (relay_list (removeRelay url st))) ∧
  (newRelay st ≠ "" → newRelay st ∉ relay_list st →
   relay_list (removeRelay (newRelay st) (addRelay st)) = relay_list st).
Proof.
  split_and!; simpl.
  - intros [_ Hne]%filter_ne_elem. done.
  - intros r Hne. rewrite filter_ne_elem. split; [by intros [? _]|done].
  - rewrite filter_ne_filter. apply sublist_filter.
  - intros before after ->. apply List.filter_app.
  - intros r Hne. by destruct (String.eqb_spec r url).
  - done.
  - intros Hnot. unfold removeRelay. rewrite filter_ne_id by done. by destruct st.
  - intros Hnd. induction Hnd as [|r urls Hr Hnd IH]; simpl; [constructor|].
    destruct (negb (String.eqb r url)); [|done].
    constructor; [|done]. intros [? _]%filter_ne_elem. done.
  - intros Hfull Hnot. rewrite addRelay_fresh by done. simpl.
    rewrite List.filter_app, filter_ne_id by done. simpl.
    rewrite String.eqb_refl. simpl. by rewrite app_nil_r.
Qed.


(** ** The further properties at work on the sample data *)

Lemma hexToBytes_shape_witness :
  @hexToBytes sample_runtime "00ff1" !! 1%nat = Some Byte.xff.
Proof.
  apply (proj1 (proj2 (@hexToBytes_shape sample_runtime "00ff1") 1%nat
                  (le_n 2))).
Defined.

Lemma hexToBytes_bytesToHex_witness :
  @hexToBytes sample_runtime (bytesToHex [Byte.x00; Byte.xff; Byte.x10])
  = [Byte.x00; Byte.xff; Byte.x10].
Proof.
  apply (@hexToBytes_bytesToHex sample_runtime [Byte.x00; Byte.xff; Byte.x10]
           sample_parseInt16_digits).
Defined.

Lemma mutate_keeps_draft_witness :
  alerts (@mutate sample_runtime env_no_relays "hello" empty_world).2
  = ["All promises were rejected"].
Proof.
  apply (proj1 (@mutate_keeps_or_clears_draft sample_runtime env_no_relays "hello" empty_world)
           (AggregateError []) eq_refl).
Defined.

Lemma publish_settles_witness :
  (@mutationFn sample_runtime env_all_settled "hello" empty_world).1 ≠ Suspended ∧
  (@mutationFn sample_runtime env_waiting "hello" empty_world).1 = Suspended.
Proof.
  split.
  - intros Hwaits.
    apply (@publish_settles sample_runtime env_all_settled "hello" empty_world) in Hwaits.
    + destruct Hwaits as [_ Hsigning]. discriminate Hsigning.
    + intros i Hi. apply list_elem_of_In. simpl in *.
      destruct i as [|[|[|i]]]; [auto..|]. exfalso. lia.
  - apply (@publish_settles sample_runtime env_waiting "hello" empty_world).
    + intros i Hi. simpl in Hi. exfalso. lia.
    + split; reflexivity.
Defined.

Lemma publish_success_needs_ack_witness :
  ∃ i url v, i ∈ settled_writes env_publish ∧ relays env_publish !! i = Some url ∧
             relay_write env_publish i url
               (mkEvent "e0" "alice" 1700000000 1 [] "hello" "s0") = Fulfilled v.
Proof.
  apply (@publish_success_needs_ack sample_runtime env_publish "hello" empty_world).
  reflexivity.
Defined.

Lemma published_note_fields_witness :
  ∃ newEvent,
    (@mutationFn sample_runtime env_both "hello" empty_world).1 = Done newEvent ∧
    kind newEvent = 1 ∧ content newEvent = "hello".
Proof.
  eexists. split; [reflexivity|].
  destruct (@published_note_fields sample_runtime env_both "hello" empty_world _
              eq_refl eq_refl) as (Hkind & _ & _ & Hcontent).
  split; [exact Hkind|exact Hcontent].
Defined.

Lemma upload_clears_flag_witness :
  @uploadToBlossom sample_runtime env_logged_out sample_file empty_world
    = (Done tt, empty_world) ∧
  isUploading
    (@uploadToBlossom sample_runtime (env_upload (JObject [])) sample_file empty_world).2
    = false.
Proof.
  split.
  - apply (proj1 (@upload_clears_flag sample_runtime env_logged_out sample_file empty_world)
             eq_refl).
  - apply (proj2 (proj2 (@upload_clears_flag sample_runtime (env_upload (JObject []))
                           sample_file empty_world) eq_refl));
      reflexivity.
Defined.


Lemma removeAttachment_witness :
  removeAttachment 5 [undefined; val JNull] = [undefined; val JNull].
Proof.
  apply (proj1 (proj2 (removeAttachment_delete 5 [undefined; val JNull] undefined))).
  simpl. lia.
Defined.

Lemma authorPubkeys_witness :
  "alice" ∈ authorPubkeys env_publish
              (@mutate sample_runtime env_publish "hello" empty_world).2.
Proof.
  destruct (authorPubkeys_distinct env_publish
              (@mutate sample_runtime env_publish "hello" empty_world).2) as [_ Hiff].
  apply (proj2 (Hiff "alice")).
  exists (mkEvent "e0" "alice" 1700000000 1 [] "hello" "s0"). split; [|reflexivity].
  apply list_elem_of_In. vm_compute. auto.
Defined.

Lemma profile_last_delivered_witness :
  ∃ m, (@metadata_queryFn sample_runtime (env_profiles 0) ["alice"] empty_world).1 = Done m ∧
       m !! "alice" = Some (JObject []).
Proof.
  destruct (@profile_last_delivered_wins sample_runtime (env_profiles 0) ["alice"] empty_world)
    as (m & Hm & Hlast); [discriminate|].
  exists m. split; [exact Hm|]. rewrite Hlast. reflexivity.
Defined.

Lemma desktop_stacking_witness :
  isMinimized (windows (foldl perform initial_desktop [Open settings; Taskbar nostalgia])
                 nostalgia) = false.
Proof.
  apply (proj1 (proj2 (desktop_stacking_determined [Open settings; Taskbar nostalgia]
                         settings nostalgia))).
  reflexivity.
Defined.

Lemma raised_window_witness :
  zIndex (windows (openApp settings initial_desktop) nostalgia)
  < zIndex (windows (openApp settings initial_desktop) settings).
Proof.
  apply (proj1 (raised_window_on_top [] settings) nostalgia). discriminate.
Defined.

Lemma taskbar_toggles_witness :
  drawn (taskbarClick nostalgia initial_desktop) nostalgia = false ∧
  drawn (taskbarClick nostalgia (taskbarClick nostalgia initial_desktop)) nostalgia = true.
Proof.
  destruct (taskbar_toggles [] nostalgia eq_refl eq_refl) as (H1 & _ & H2 & _).
  split; [exact H1|exact H2].
Defined.

Lemma session_storage_witness :
  let s := foldl (@session_step sample_runtime sample_decode roomy_storage)
                 (initial_session ∅)
                 [LoginWithSk sample_key_hex; LoginWithExtension (Some (Done "alice"))] in
  s_userSk s = localStorage s !! "nostr_sk" ∧ s_userPk s = localStorage s !! "nostr_pk".
Proof.
  apply (@session_storage_agree sample_runtime sample_decode roomy_storage ∅
           [LoginWithSk sample_key_hex; LoginWithExtension (Some (Done "alice"))]).
  reflexivity.
Defined.


Lemma extension_login_witness :
  s_userSk (loginWithExtension roomy_storage (Some (Done "alice"))
              (@loginWithSk sample_runtime sample_decode roomy_storage sample_key_hex
                 fresh_session)) = None.
Proof.
  assert ("alice" ≠ "") as Hpk by discriminate.
  apply (proj1 (@extension_login_uses_agent sample_runtime roomy_storage
                  (@loginWithSk sample_runtime sample_decode roomy_storage sample_key_hex
                     fresh_session)
                  env_publish "alice" sample_agent "hello" empty_world Hpk eq_refl)).
Defined.

Lemma nsec_login_witness :
  @hexToBytes sample_runtime
    (default "" (s_userSk (@loginWithSk sample_runtime sample_decode roomy_storage
                             "nsec1sample" fresh_session)))
  = sample_key.
Proof.
  apply (@nsec_login_key sample_runtime sample_decode roomy_storage "nsec1sample"
           fresh_session sample_key ("pk" +:+ bytesToHex (rev sample_key))
           sample_parseInt16_digits eq_refl eq_refl eq_refl).
Defined.

Lemma addRelay_witness :
  addRelay settings_typing = mkSettings ["wss://relay.one"; "wss://relay.two"] "".
Proof.
  apply (proj1 (proj2 (addRelay_distinct settings_typing))).
  - discriminate.
  - intros Hin. apply list_elem_of_In in Hin. simpl in Hin.
    destruct Hin as [Heq|[]]. discriminate Heq.
Defined.

Lemma removeRelay_witness :
  relay_list (removeRelay (newRelay settings_typing) (addRelay settings_typing))
  = relay_list settings_typing.
Proof.
  destruct (removeRelay_removes "wss://relay.two" settings_typing)
    as (_ & _ & _ & _ & _ & _ & _ & _ & Hback).
  apply Hback.
  - discriminate.
  - intros Hin. apply list_elem_of_In in Hin. simpl in Hin.
    destruct Hin as [Heq|[]]. discriminate Heq.
Defined.

